(** * static-fifo: the fixed-capacity circular buffer of [FIFO.hpp]

    A shallow embedding of [template <typename T, size_t t_size> class Fifo]
    and the properties of its index arithmetic.

    - [size_t] values are integers in [Z]; the additions and subtractions
      of the source are followed by their reduction modulo [2^64]
      ([size_add], [size_sub]), the loop counter of [operator==] apart,
      which its loop test keeps below [m_nbElements].
    - [std::array<T, t_size> m_buffer] is a [list T]; [m_buffer[i]] is the
      total lookup [!!!] and an assignment to [m_buffer[i]] is the list
      update [<[i:=x]>], which leaves the list alone when [i] is out of
      range (the source has undefined behaviour there; the invariant
      proved below keeps every index in range).
    - A caller's [T *destination] is the caller's buffer as a [list T]
      together with the offset the pointer has reached in it. *)

From Stdlib Require Import ZArith Lia.
From stdpp Require Import base decidable list list_numbers.
From Equations Require Import Equations.

Local Open Scope Z_scope.

(** ** [size_t] arithmetic *)

Definition SIZE_WIDTH : Z := 64.
Definition SIZE_MODULUS : Z := 2 ^ SIZE_WIDTH.
Definition PTRDIFF_MAX : Z := 2 ^ (SIZE_WIDTH - 1) - 1.

(** A value that fits [size_t]. *)
Definition is_size_t (z : Z) : Prop := 0 <= z < SIZE_MODULUS.

(** Reduction of an arithmetic result to [size_t]. *)
Definition wrap (z : Z) : Z := z mod SIZE_MODULUS.

Definition size_add (a b : Z) : Z := wrap (a + b).
Definition size_sub (a b : Z) : Z := wrap (a - b).

(** ** The class [Fifo<T, t_size>] *)

Record Fifo (T : Type) : Type := mkFifo {
  m_buffer : list T;
  m_readIdx : Z;
  m_writeIdx : Z;
  m_nbElements : Z
}.

Arguments mkFifo {T} _ _ _ _.
Arguments m_buffer {T} _.
Arguments m_readIdx {T} _.
Arguments m_writeIdx {T} _.
Arguments m_nbElements {T} _.

Section FifoOps.
Context {T : Type} `{!Inhabited T} `{!EqDecision T}.
Variable t_size : Z.

(** [m_buffer[i]] as an rvalue and as the target of an assignment. *)
Definition buf_get (b : list T) (i : Z) : T := b !!! Z.to_nat i.
Definition buf_set (b : list T) (i : Z) (x : T) : list T :=
  <[Z.to_nat i := x]> b.

(** [Fifo()]: indices and count zero, [m_buffer{}] value-initialised. *)
Definition Fifo_new : Fifo T :=
  mkFifo (replicate (Z.to_nat t_size) inhabitant) 0 0 0.

Definition Fifo_getCount (f : Fifo T) : Z := m_nbElements f.

Definition Fifo_reset (f : Fifo T) : Fifo T :=
  mkFifo (m_buffer f) 0 0 0.

(** [bool pop_back(T *const dest)]: the result, the buffer, and [*dest]. *)
Definition Fifo_pop_back (f : Fifo T) (dest : T) : bool * Fifo T * T :=
  if decide (m_nbElements f <> 0) then
    (true,
     mkFifo (m_buffer f)
            (size_add (m_readIdx f) 1 mod t_size)
            (m_writeIdx f)
            (size_sub (m_nbElements f) 1),
     buf_get (m_buffer f) (m_readIdx f))
  else (false, f, dest).

(** The body of the [for] loop of [push], on the buffer and the local
    [nbElementsCopied]. *)
Definition push_body (st : Fifo T * Z) (element : T) : Fifo T * Z :=
  let '(f, nbElementsCopied) := st in
  let buffer := buf_set (m_buffer f) (m_writeIdx f) element in
  let writeIdx := size_add (m_writeIdx f) 1 mod t_size in
  if decide (m_nbElements f < t_size) then
    (mkFifo buffer (m_readIdx f) writeIdx (size_add (m_nbElements f) 1),
     size_add nbElementsCopied 1)
  else
    (mkFifo buffer writeIdx writeIdx (m_nbElements f), nbElementsCopied).

(** [size_t push(std::span<const T> src, bool overwrite)]. *)
Definition Fifo_push (f : Fifo T) (src : list T) (overwrite : bool)
  : Z * Fifo T :=
  if negb overwrite
     && bool_decide (Z.of_nat (length src) > size_sub t_size (m_nbElements f))
  then (0, f)
  else let '(f', nbElementsCopied) := fold_left push_body src (f, 0) in
       (nbElementsCopied, f').

(** [size_t push(T *src, size_t size, bool overwrite)]: the span of the
    first [size] elements at [src]. *)
Definition Fifo_push_ptr (f : Fifo T) (src : list T) (size : Z)
    (overwrite : bool) : Z * Fifo T :=
  Fifo_push f (take (Z.to_nat size) src) overwrite.

(** [bool push(T var, bool overwrite)]. *)
Definition Fifo_push_var (f : Fifo T) (var : T) (overwrite : bool)
  : bool * Fifo T :=
  let '(n, f') := Fifo_push_ptr f [var] 1 overwrite in
  (bool_decide (n <> 0), f').

(** [Fifo(const std::initializer_list<T> &)]: the assertion on the size
    of the list tests a string literal and never fires. *)
Definition Fifo_of_list (initList : list T) : Fifo T :=
  fold_left (fun f item => snd (Fifo_push_var f item false)) initList Fifo_new.

(** [size_t drop(size_t size)]. *)
Definition Fifo_drop (f : Fifo T) (size : Z) : Z * Fifo T :=
  let droppedSamples := Z.min (m_nbElements f) size in
  (droppedSamples,
   mkFifo (m_buffer f)
          (size_add (m_readIdx f) droppedSamples mod t_size)
          (m_writeIdx f)
          (size_sub (m_nbElements f) droppedSamples)).

(** The [while] loop of [pull]: [p] is the offset [destination] has
    reached in the caller's buffer. The loop returns the buffer, the
    caller's buffer and what is left of [availSpace]. *)
Equations? pull_loop (f : Fifo T) (destination : list T) (p : nat)
    (availSpace : Z) : Fifo T * list T * Z
    by wf (Z.to_nat availSpace) lt :=
  pull_loop f destination p availSpace with
    decide (availSpace > 0 /\ m_nbElements f > 0) => {
    | left _ =>
        pull_loop
          (mkFifo (m_buffer f)
                  (size_add (m_readIdx f) 1 mod t_size)
                  (m_writeIdx f)
                  (size_sub (m_nbElements f) 1))
          (<[p := buf_get (m_buffer f) (m_readIdx f)]> destination)
          (S p)
          (size_sub availSpace 1);
    | right _ => (f, destination, availSpace) }.
Proof.
  unfold size_sub, wrap.
  assert (0 <= (availSpace - 1) mod SIZE_MODULUS <= availSpace - 1).
  { split; [apply Z.mod_pos_bound; reflexivity|].
    apply Z.mod_le; [lia | reflexivity]. }
  lia.
Qed.

(** [size_t pull(T *destination, size_t availSpace)]. *)
Definition Fifo_pull (f : Fifo T) (destination : list T) (availSpace : Z)
  : Z * Fifo T * list T :=
  let nbElementsToCopy := availSpace in
  let '(f', destination', availSpace') :=
    pull_loop f destination 0%nat availSpace in
  (size_sub nbElementsToCopy availSpace', f', destination').

(** The [while] loop of [read], on the locals [readIdx] and
    [remainInFifo]; the members are only read. *)
Equations? read_loop (f : Fifo T) (readIdx remainInFifo : Z)
    (destination : list T) (p : nat) (availSpace : Z) : list T * Z
    by wf (Z.to_nat availSpace) lt :=
  read_loop f readIdx remainInFifo destination p availSpace with
    decide (availSpace > 0 /\ remainInFifo > 0) => {
    | left _ =>
        read_loop f
          (size_add readIdx 1 mod t_size)
          (size_sub remainInFifo 1)
          (<[p := buf_get (m_buffer f) readIdx]> destination)
          (S p)
          (size_sub availSpace 1);
    | right _ => (destination, availSpace) }.
Proof.
  unfold size_sub, wrap.
  assert (0 <= (availSpace - 1) mod SIZE_MODULUS <= availSpace - 1).
  { split; [apply Z.mod_pos_bound; reflexivity|].
    apply Z.mod_le; [lia | reflexivity]. }
  lia.
Qed.

(** [size_t read(T *destination, size_t availSpace)]. *)
Definition Fifo_read (f : Fifo T) (destination : list T) (availSpace : Z)
  : Z * Fifo T * list T :=
  let nbElementsToCopy := availSpace in
  let readIdx := m_readIdx f in
  let remainInFifo := m_nbElements f in
  let '(destination', availSpace') :=
    read_loop f readIdx remainInFifo destination 0%nat availSpace in
  (size_sub nbElementsToCopy availSpace', f, destination').

(** [T &operator[](std::size_t idx)], as an rvalue. *)
Definition Fifo_at (f : Fifo T) (idx : Z) : T :=
  let readIndex := size_add (m_readIdx f) idx mod t_size in
  buf_get (m_buffer f) readIndex.

(** The [for] loop of [operator==]. The counter [i] stays below
    [m_nbElements], so [i++] cannot leave [size_t]. *)
Equations? eq_loop (f other : Fifo T) (idx otherIdx i : Z) : bool
    by wf (Z.to_nat (m_nbElements f - i)) lt :=
  eq_loop f other idx otherIdx i with decide (i < m_nbElements f) => {
    | left _ =>
        if decide (buf_get (m_buffer f) idx
                   <> buf_get (m_buffer other) otherIdx)
        then false
        else eq_loop f other
               (size_add idx 1 mod t_size)
               (size_add otherIdx 1 mod t_size)
               (i + 1);
    | right _ => true }.
Proof. lia. Qed.

(** [bool operator==(const Fifo<T, t_size> &other) const]. *)
Definition Fifo_eq (f other : Fifo T) : bool :=
  if decide (m_nbElements f <> m_nbElements other) then false
  else eq_loop f other (m_readIdx f) (m_readIdx other) 0.

(** ** Views used to state the properties *)

(** The data-model invariant of the index arithmetic. *)
Definition fifo_inv (f : Fifo T) : Prop :=
  0 <= m_nbElements f <= t_size
  /\ 0 <= m_readIdx f < t_size
  /\ 0 <= m_writeIdx f < t_size
  /\ (m_nbElements f < t_size ->
      m_writeIdx f = (m_readIdx f + m_nbElements f) mod t_size)
  /\ (m_nbElements f = t_size -> m_writeIdx f = m_readIdx f).

(** The invariant together with the size of the backing array. *)
Definition fifo_wf (f : Fifo T) : Prop :=
  length (m_buffer f) = Z.to_nat t_size /\ fifo_inv f.

(** The elements held, oldest first: [f[0], ..., f[count - 1]]. *)
Definition contents (f : Fifo T) : list T :=
  Fifo_at f <$> seqZ 0 (m_nbElements f).

(** The public operations, with the arguments a caller supplies. *)
Inductive op : Type :=
| OpPush (src : list T) (overwrite : bool)
| OpPushVar (var : T) (overwrite : bool)
| OpPop (dest : T)
| OpPull (destination : list T) (availSpace : Z)
| OpRead (destination : list T) (availSpace : Z)
| OpDrop (size : Z)
| OpReset.

(** The [size_t] arguments are in range. *)
Definition op_ok (o : op) : Prop :=
  match o with
  | OpPull _ availSpace | OpRead _ availSpace => is_size_t availSpace
  | OpDrop size => is_size_t size
  | _ => True
  end.

Definition apply_op (f : Fifo T) (o : op) : Fifo T :=
  match o with
  | OpPush src overwrite => snd (Fifo_push f src overwrite)
  | OpPushVar var overwrite => snd (Fifo_push_var f var overwrite)
  | OpPop dest => snd (fst (Fifo_pop_back f dest))
  | OpPull destination availSpace =>
      snd (fst (Fifo_pull f destination availSpace))
  | OpRead destination availSpace =>
      snd (fst (Fifo_read f destination availSpace))
  | OpDrop size => snd (Fifo_drop f size)
  | OpReset => Fifo_reset f
  end.

(** A run of operations on a buffer. *)
Definition run (f : Fifo T) (ops : list op) : Fifo T :=
  fold_left apply_op ops f.

(** A series of pushes without overwrite. *)
Definition push_all (f : Fifo T) (srcs : list (list T)) : Fifo T :=
  fold_left (fun f src => snd (Fifo_push f src false)) srcs f.

(** A series of pulls, each into its own destination with its own
    [availSpace]; the result is everything the calls delivered, in the
    order of the calls, and the buffer they leave. *)
Fixpoint pull_all (f : Fifo T) (reqs : list (list T * Z))
  : list T * Fifo T :=
  match reqs with
  | [] => ([], f)
  | (destination, availSpace) :: reqs' =>
      let '(n, f', destination') := Fifo_pull f destination availSpace in
      let '(out, f'') := pull_all f' reqs' in
      (take (Z.to_nat n) destination' ++ out, f'')
  end.

(** A pull request a caller may make: [availSpace] fits [size_t] and the
    destination has that much room. *)
Definition req_ok (r : list T * Z) : Prop :=
  is_size_t (snd r) /\ snd r <= Z.of_nat (length (fst r)).

(** The room a series of pull requests offers in total. *)
Definition total_space (reqs : list (list T * Z)) : Z :=
  foldr (fun r acc => snd r + acc) 0 reqs.

(** [read] called again [n] times on the same destination after a first
    call; the result is that of the last call. *)
Fixpoint read_times (n : nat) (f : Fifo T) (destination : list T)
    (availSpace : Z) : Z * Fifo T * list T :=
  match n with
  | O => Fifo_read f destination availSpace
  | S n' =>
      let '(_, f', destination') := Fifo_read f destination availSpace in
      read_times n' f' destination' availSpace
  end.

(** ** The rest of the class *)

(** [T &operator[](std::size_t idx)] as the target of an assignment,
    [fifo[idx] = x]. *)
Definition Fifo_at_set (f : Fifo T) (idx : Z) (x : T) : Fifo T :=
  let readIndex := size_add (m_readIdx f) idx mod t_size in
  mkFifo (buf_set (m_buffer f) readIndex x)
         (m_readIdx f) (m_writeIdx f) (m_nbElements f).

(** [const T *data(void)]: the backing array from its slot 0. *)
Definition Fifo_data (f : Fifo T) : list T := m_buffer f.

(** The nested class [Iterator]. Its member [m_fifo] is a reference to the
    buffer: [operator*] reads the buffer as it is when it is called, so it
    takes the buffer as an argument. *)
Record Iterator : Type := mkIterator {
  m_index : Z;
  m_remaining : Z
}.

(** [T operator*() const]. *)
Definition Iterator_deref (m_fifo : Fifo T) (it : Iterator) : T :=
  buf_get (m_buffer m_fifo) (m_index it).

(** [Iterator &operator++()]. *)
Definition Iterator_incr (it : Iterator) : Iterator :=
  if decide (m_remaining it > 0) then
    mkIterator (size_add (m_index it) 1 mod t_size)
               (size_sub (m_remaining it) 1)
  else it.

(** [bool operator==(const Iterator &other) const]. *)
Definition Iterator_eq (it other : Iterator) : bool :=
  bool_decide (m_index it = m_index other)
  && bool_decide (m_remaining it = m_remaining other).

(** [Iterator begin() const] and [Iterator end() const]. *)
Definition Fifo_begin (f : Fifo T) : Iterator :=
  mkIterator (m_readIdx f) (m_nbElements f).

Definition Fifo_end (f : Fifo T) : Iterator :=
  mkIterator (size_add (m_readIdx f) (m_nbElements f) mod t_size) 0.

(** The loop a range-based [for] runs over the buffer [m_fifo]: from
    [it = first], while [!(it == last)], collect [operator*] of [it] and
    apply [operator++]. The loop has no bound of its own: [fuel] is the
    number of turns allowed. *)
Fixpoint range_for (fuel : nat) (m_fifo : Fifo T) (it last : Iterator)
    {struct fuel} : option (list T) :=
  if Iterator_eq it last then Some []
  else match fuel with
       | O => None
       | S fuel' =>
           cons (Iterator_deref m_fifo it)
             <$> range_for fuel' m_fifo (Iterator_incr it) last
       end.

(** A bounded queue on plain lists, oldest element first: the reference
    the buffer is compared with. It follows the data model, not the code. *)
Definition queue_push (c src : list T) (overwrite : bool) : list T :=
  if negb overwrite
     && bool_decide (Z.of_nat (length src) > t_size - Z.of_nat (length c))
  then c
  else drop (length (c ++ src) - Z.to_nat t_size) (c ++ src).

Definition queue_apply (c : list T) (o : op) : list T :=
  match o with
  | OpPush src overwrite => queue_push c src overwrite
  | OpPushVar var overwrite => queue_push c [var] overwrite
  | OpPop _ => drop 1 c
  | OpPull _ availSpace => drop (Z.to_nat availSpace) c
  | OpRead _ _ => c
  | OpDrop size => drop (Z.to_nat size) c
  | OpReset => []
  end.

End FifoOps.

(** [int{}] is zero. *)
Definition int_default : Inhabited Z := populate 0.

(** ** Arithmetic of [size_t] and of indices modulo the capacity *)

Lemma wrap_small z : is_size_t z -> wrap z = z.
Proof. intros H. unfold wrap. apply Z.mod_small. exact H. Qed.

Lemma size_modulus_val : SIZE_MODULUS = 18446744073709551616.
Proof. reflexivity. Qed.

Lemma ptrdiff_max_val : PTRDIFF_MAX = 9223372036854775807.
Proof. reflexivity. Qed.

Lemma size_add_small a b :
  0 <= a + b < SIZE_MODULUS -> size_add a b = a + b.
Proof. intros H. unfold size_add. now apply wrap_small. Qed.

Lemma size_sub_small a b :
  0 <= a - b < SIZE_MODULUS -> size_sub a b = a - b.
Proof. intros H. unfold size_sub. now apply wrap_small. Qed.

Lemma mod_add_inj t r i j :
  0 < t -> 0 <= i < t -> 0 <= j < t ->
  (r + i) mod t = (r + j) mod t -> i = j.
Proof.
  intros Ht Hi Hj Heq.
  pose proof (Z.div_mod (r + i) t ltac:(lia)) as E1.
  pose proof (Z.div_mod (r + j) t ltac:(lia)) as E2.
  rewrite Heq in E1.
  assert (i - j = t * ((r + i) / t - (r + j) / t)) as E by lia.
  assert ((r + i) / t - (r + j) / t = 0) by nia.
  nia.
Qed.

Lemma mod_succ_add t r i :
  0 < t -> ((r + 1) mod t + i) mod t = (r + (1 + i)) mod t.
Proof.
  intros Ht. rewrite Z.add_mod_idemp_l by lia. f_equal. lia.
Qed.

Ltac size_range :=
  unfold is_size_t in *;
  rewrite ?size_modulus_val, ?ptrdiff_max_val in *;
  lia.

(** ** The buffer's invariant and its logical contents *)

(** The capacity is positive, and [std::array<T, t_size>] is an object, so
    it has at most [PTRDIFF_MAX] elements: sums of two indices fit
    [size_t]. *)
Section FifoFacts.
Context {T : Type} `{!Inhabited T} `{!EqDecision T}.
Variable t_size : Z.
Hypothesis Hsize : 0 < t_size <= PTRDIFF_MAX.

Implicit Types (f : Fifo T) (src : list T).

Lemma t_size_fits : 0 < t_size /\ 2 * t_size < SIZE_MODULUS.
Proof. size_range. Qed.

(** Both clauses about [m_writeIdx] say that it is [count] slots after
    [m_readIdx], modulo the capacity. *)
Lemma fifo_inv_alt f :
  fifo_inv t_size f <->
  0 <= m_nbElements f <= t_size
  /\ 0 <= m_readIdx f < t_size
  /\ m_writeIdx f = (m_readIdx f + m_nbElements f) mod t_size.
Proof.
  unfold fifo_inv. split.
  - intros (Hn & Hr & Hw & Hlt & Hfull). repeat split; try lia.
    destruct (decide (m_nbElements f < t_size)) as [Hc|Hc]; [auto|].
    assert (m_nbElements f = t_size) as E by lia.
    rewrite (Hfull E), E.
    rewrite <- (Z.mul_1_l t_size) at 1.
    rewrite Z.mod_add by lia. symmetry. apply Z.mod_small. lia.
  - intros (Hn & Hr & Hw).
    assert (0 <= m_writeIdx f < t_size).
    { rewrite Hw. apply Z.mod_pos_bound. lia. }
    repeat split; try lia.
    intros E. rewrite Hw, E.
    rewrite <- (Z.mul_1_l t_size) at 1.
    rewrite Z.mod_add by lia. apply Z.mod_small. lia.
Qed.

Lemma next_index i :
  0 <= i < t_size -> size_add i 1 mod t_size = (i + 1) mod t_size.
Proof.
  intros Hi. rewrite size_add_small; [reflexivity|].
  pose proof t_size_fits. lia.
Qed.

Lemma Fifo_new_wf : fifo_wf t_size (Fifo_new (T:=T) t_size).
Proof.
  split; [apply length_replicate|].
  apply fifo_inv_alt. simpl. repeat split; try lia.
  all: symmetry; apply Z.mod_0_l; lia.
Qed.

Lemma Fifo_reset_wf f : fifo_wf t_size f -> fifo_wf t_size (Fifo_reset f).
Proof.
  intros [Hlen _]. split; [exact Hlen|].
  apply fifo_inv_alt. simpl. repeat split; try lia.
  all: symmetry; apply Z.mod_0_l; lia.
Qed.

(** The state [pop_back] and each turn of [pull]'s loop leave. *)
Lemma advance_wf f :
  fifo_wf t_size f -> m_nbElements f > 0 ->
  fifo_wf t_size
    (mkFifo (m_buffer f) (size_add (m_readIdx f) 1 mod t_size)
            (m_writeIdx f) (size_sub (m_nbElements f) 1)).
Proof.
  intros [Hlen Hinv] Hpos. split; [exact Hlen|].
  apply fifo_inv_alt in Hinv as (Hn & Hr & Hw).
  pose proof t_size_fits as Hfit.
  apply fifo_inv_alt. simpl.
  rewrite next_index by lia. rewrite size_sub_small by lia.
  repeat split; try lia; try (apply Z.mod_pos_bound; lia).
  rewrite Z.add_mod_idemp_l by lia. rewrite Hw. f_equal. lia.
Qed.

Lemma push_body_wf f c element :
  fifo_wf t_size f -> fifo_wf t_size (fst (push_body t_size (f, c) element)).
Proof.
  intros [Hlen Hinv].
  apply fifo_inv_alt in Hinv as (Hn & Hr & Hw).
  pose proof t_size_fits as Hfit.
  assert (0 <= m_writeIdx f < t_size) as Hwr.
  { rewrite Hw. apply Z.mod_pos_bound. lia. }
  unfold push_body.
  destruct (decide (m_nbElements f < t_size)) as [Hc|Hc]; simpl;
    (split; [unfold buf_set; simpl; rewrite length_insert; exact Hlen|]);
    apply fifo_inv_alt; simpl; rewrite next_index by lia.
  - rewrite size_add_small by lia. repeat split; try lia.
    rewrite Hw, Z.add_mod_idemp_l by lia. f_equal. lia.
  - assert (m_nbElements f = t_size) as E by lia.
    repeat split; try lia; try (apply Z.mod_pos_bound; lia).
    rewrite E. rewrite <- (Z.mul_1_l t_size) at 3.
    rewrite Z.mod_add by lia. rewrite Z.mod_mod by lia. reflexivity.
Qed.

Lemma push_loop_wf src : forall f c,
  fifo_wf t_size f ->
  fifo_wf t_size (fst (fold_left (push_body t_size) src (f, c))).
Proof.
  induction src as [|x src IH]; intros f c Hwf; cbn [fold_left];
    [exact Hwf|].
  destruct (push_body t_size (f, c) x) as [f1 c1] eqn:E.
  apply IH. change f1 with (fst (f1, c1)). rewrite <- E.
  now apply push_body_wf.
Qed.

Lemma Fifo_push_wf f src overwrite :
  fifo_wf t_size f -> fifo_wf t_size (snd (Fifo_push t_size f src overwrite)).
Proof.
  intros Hwf. unfold Fifo_push.
  destruct (negb overwrite && _); [exact Hwf|].
  pose proof (push_loop_wf src f 0 Hwf) as H.
  destruct (fold_left _ src _) as [f' c']. exact H.
Qed.

Lemma Fifo_push_var_wf f var overwrite :
  fifo_wf t_size f ->
  fifo_wf t_size (snd (Fifo_push_var t_size f var overwrite)).
Proof.
  intros Hwf. unfold Fifo_push_var, Fifo_push_ptr.
  pose proof (Fifo_push_wf f (take (Z.to_nat 1) [var]) overwrite Hwf) as H.
  destruct (Fifo_push _ _ _ _) as [n f']. exact H.
Qed.

Lemma Fifo_pop_back_wf f dest :
  fifo_wf t_size f -> fifo_wf t_size (snd (fst (Fifo_pop_back t_size f dest))).
Proof.
  intros Hwf. unfold Fifo_pop_back.
  destruct (decide (m_nbElements f <> 0)) as [Hc|Hc]; simpl; [|exact Hwf].
  apply advance_wf; [exact Hwf|].
  destruct Hwf as [_ (Hn & _)]. lia.
Qed.

Lemma Fifo_drop_wf f size :
  fifo_wf t_size f -> is_size_t size ->
  fifo_wf t_size (snd (Fifo_drop t_size f size)).
Proof.
  intros [Hlen Hinv] Hs. split; [exact Hlen|].
  apply fifo_inv_alt in Hinv as (Hn & Hr & Hw).
  pose proof t_size_fits as Hfit.
  unfold is_size_t in Hs.
  apply fifo_inv_alt. simpl.
  rewrite size_add_small by lia. rewrite size_sub_small by lia.
  repeat split; try lia; try (apply Z.mod_pos_bound; lia).
  rewrite Z.add_mod_idemp_l by lia. rewrite Hw. f_equal. lia.
Qed.

(** *** Logical contents *)

Lemma contents_length f : length (contents t_size f) = Z.to_nat (m_nbElements f).
Proof. unfold contents. now rewrite length_fmap, length_seqZ. Qed.

Lemma Fifo_at_in_range f i :
  0 <= m_readIdx f < t_size -> 0 <= i <= t_size ->
  Fifo_at t_size f i = buf_get (m_buffer f) ((m_readIdx f + i) mod t_size).
Proof.
  intros Hr Hi. unfold Fifo_at. rewrite size_add_small; [reflexivity|].
  pose proof t_size_fits. lia.
Qed.

Lemma contents_lookup f (i : nat) :
  fifo_wf t_size f -> (i < Z.to_nat (m_nbElements f))%nat ->
  contents t_size f !! i
  = Some (buf_get (m_buffer f) ((m_readIdx f + Z.of_nat i) mod t_size)).
Proof.
  intros [_ (Hn & Hr & _)] Hi. unfold contents.
  rewrite list_lookup_fmap, lookup_seqZ_lt by lia. simpl.
  rewrite Fifo_at_in_range by lia. reflexivity.
Qed.

(** The front element, and what is behind it. *)
Lemma contents_cons f :
  fifo_wf t_size f -> m_nbElements f > 0 ->
  contents t_size f
  = buf_get (m_buffer f) (m_readIdx f)
    :: contents t_size
         (mkFifo (m_buffer f) (size_add (m_readIdx f) 1 mod t_size)
                 (m_writeIdx f) (size_sub (m_nbElements f) 1)).
Proof.
  intros Hwf Hpos.
  pose proof (advance_wf f Hwf Hpos) as Hwf'.
  pose proof Hwf as [_ (Hn & Hr & _)].
  pose proof t_size_fits as Hfit.
  apply list_eq. intros [|i].
  - rewrite contents_lookup by (trivial; lia). simpl.
    rewrite Z.add_0_r, Z.mod_small by lia. reflexivity.
  - simpl.
    destruct (decide (S i < Z.to_nat (m_nbElements f))%nat) as [Hi|Hi].
    + rewrite !contents_lookup;
        try assumption; simpl; rewrite ?size_sub_small by lia; try lia.
      rewrite next_index by lia. rewrite mod_succ_add by lia.
      do 3 f_equal. lia.
    + rewrite !lookup_ge_None_2; [reflexivity| |];
        rewrite contents_length; simpl; rewrite ?size_sub_small by lia; lia.
Qed.

(** *** The loop of [pull] *)

Lemma pull_loop_spec f destination p availSpace :
  fifo_wf t_size f -> is_size_t availSpace ->
  exists destination',
    pull_loop t_size f destination p availSpace
    = (mkFifo (m_buffer f)
              ((m_readIdx f + Z.min availSpace (m_nbElements f)) mod t_size)
              (m_writeIdx f)
              (m_nbElements f - Z.min availSpace (m_nbElements f)),
       destination', availSpace - Z.min availSpace (m_nbElements f))
    /\ ((p + Z.to_nat (Z.min availSpace (m_nbElements f))
         <= length destination)%nat ->
        destination'
        = take p destination
          ++ take (Z.to_nat (Z.min availSpace (m_nbElements f)))
                  (contents t_size f)
          ++ drop (p + Z.to_nat (Z.min availSpace (m_nbElements f)))
                  destination).
Proof.
  funelim (pull_loop t_size f destination p availSpace);
    intros Hwf Hav; set (k := Z.min availSpace (m_nbElements f));
    pose proof Hwf as [_ (Hn & Hr & _)];
    pose proof t_size_fits as Hfit; unfold is_size_t in Hav.
  - clear Heqcall Heq.
    destruct a as [Ha Hc].
    pose proof (advance_wf f Hwf Hc) as Hwf'.
    revert H Hwf'. rewrite !size_sub_small, !next_index by lia.
    intros H Hwf'.
    destruct (H Hwf') as (d' & E & Hd'); [unfold is_size_t; lia|].
    clear H. simpl in E, Hd'.
    replace (Z.min (availSpace - 1) (m_nbElements f - 1))
      with (k - 1) in E, Hd' by lia.
    exists d'. split.
    + rewrite E. f_equal; [f_equal|lia]. f_equal; [|lia].
      rewrite mod_succ_add by lia. f_equal. lia.
    + intros Hlen. rewrite length_insert in Hd'.
      replace (Z.to_nat k) with (S (Z.to_nat (k - 1))) in * by lia.
      rewrite Hd' by lia.
      rewrite (contents_cons f Hwf Hc).
      rewrite size_sub_small, next_index by lia. cbn [take].
      rewrite (take_S_r _ _ (buf_get (m_buffer f) (m_readIdx f)))
        by (apply list_lookup_insert_eq; lia).
      rewrite take_insert_ge by lia.
      rewrite drop_insert_lt by lia.
      rewrite <- app_assoc. simpl.
      now rewrite Nat.add_succ_r.
  - clear Heqcall Heq.
    assert (k = 0) as -> by lia.
    exists destination. split.
    + destruct f; simpl in *. rewrite Z.add_0_r, Z.mod_small by lia.
      rewrite !Z.sub_0_r. reflexivity.
    + intros _. simpl. rewrite Nat.add_0_r. now rewrite take_drop.
Qed.

Lemma Fifo_pull_spec f destination availSpace :
  fifo_wf t_size f -> is_size_t availSpace ->
  exists destination',
    Fifo_pull t_size f destination availSpace
    = (Z.min availSpace (m_nbElements f),
       mkFifo (m_buffer f)
              ((m_readIdx f + Z.min availSpace (m_nbElements f)) mod t_size)
              (m_writeIdx f)
              (m_nbElements f - Z.min availSpace (m_nbElements f)),
       destination')
    /\ (Z.min availSpace (m_nbElements f) <= Z.of_nat (length destination) ->
        destination'
        = take (Z.to_nat (Z.min availSpace (m_nbElements f)))
               (contents t_size f)
          ++ drop (Z.to_nat (Z.min availSpace (m_nbElements f)))
                  destination).
Proof.
  intros Hwf Hav.
  destruct (pull_loop_spec f destination 0%nat availSpace Hwf Hav)
    as (d' & E & Hd').
  pose proof Hwf as [_ (Hn & _)]. unfold is_size_t in Hav.
  exists d'. split.
  - unfold Fifo_pull. rewrite E. rewrite size_sub_small by lia.
    do 2 f_equal. lia.
  - intros Hlen. rewrite Hd' by lia. reflexivity.
Qed.

Lemma Fifo_pull_wf f destination availSpace :
  fifo_wf t_size f -> is_size_t availSpace ->
  fifo_wf t_size (snd (fst (Fifo_pull t_size f destination availSpace))).
Proof.
  intros Hwf Hav.
  destruct (Fifo_pull_spec f destination availSpace Hwf Hav) as (d' & -> & _).
  simpl. destruct Hwf as [Hlen Hinv]. split; [exact Hlen|].
  apply fifo_inv_alt in Hinv as (Hn & Hr & Hw). unfold is_size_t in Hav.
  apply fifo_inv_alt. simpl.
  repeat split; try lia; try (apply Z.mod_pos_bound; lia).
  rewrite Z.add_mod_idemp_l by lia. rewrite Hw. f_equal. lia.
Qed.

(** *** The loop of [read] is the loop of [pull] on local copies *)

Lemma read_loop_pull_loop f destination p availSpace : forall g,
  m_buffer g = m_buffer f ->
  read_loop t_size g (m_readIdx f) (m_nbElements f) destination p availSpace
  = (snd (fst (pull_loop t_size f destination p availSpace)),
     snd (pull_loop t_size f destination p availSpace)).
Proof.
  funelim (pull_loop t_size f destination p availSpace);
    intros g Hbuf; simp read_loop; rewrite Heq; simpl.
  - rewrite Hbuf. apply (H g). exact Hbuf.
  - reflexivity.
Qed.

Lemma Fifo_read_pull f destination availSpace :
  Fifo_read t_size f destination availSpace
  = (fst (fst (Fifo_pull t_size f destination availSpace)), f,
     snd (Fifo_pull t_size f destination availSpace)).
Proof.
  unfold Fifo_read, Fifo_pull.
  rewrite (read_loop_pull_loop f destination 0%nat availSpace f eq_refl).
  destruct (pull_loop t_size f destination 0 availSpace) as [[f' d'] a'].
  reflexivity.
Qed.

(** *** The body of the loop of [push] *)

Lemma buf_get_set_eq (b : list T) i x :
  0 <= i < Z.of_nat (length b) -> buf_get (buf_set b i x) i = x.
Proof.
  intros Hi. unfold buf_get, buf_set.
  apply list_lookup_total_insert_eq. lia.
Qed.

Lemma buf_get_set_ne (b : list T) i j x :
  0 <= i -> 0 <= j -> i <> j -> buf_get (buf_set b i x) j = buf_get b j.
Proof.
  intros Hi Hj Hne. unfold buf_get, buf_set.
  apply list_lookup_total_insert_ne. lia.
Qed.

Lemma push_body_count f c element :
  snd (push_body t_size (f, c) element)
  = if decide (m_nbElements f < t_size) then size_add c 1 else c.
Proof. unfold push_body. now destruct (decide _). Qed.

(** A write into a buffer with a free slot appends to the contents. *)
Lemma push_body_contents_free f c element :
  fifo_wf t_size f -> m_nbElements f < t_size ->
  contents t_size (fst (push_body t_size (f, c) element))
  = contents t_size f ++ [element].
Proof.
  intros Hwf Hc.
  pose proof (push_body_wf f c element Hwf) as Hwf'.
  pose proof Hwf as [Hlen Hinv].
  apply fifo_inv_alt in Hinv as (Hn & Hr & Hw).
  pose proof t_size_fits as Hfit.
  revert Hwf'. unfold push_body.
  destruct (decide (m_nbElements f < t_size)) as [_|]; [|lia].
  simpl. rewrite (size_add_small (m_nbElements f)) by lia. intros Hwf'.
  apply list_eq. intros i.
  destruct (decide (i < Z.to_nat (m_nbElements f))%nat) as [Hi|Hi].
  - rewrite lookup_app_l by (rewrite contents_length; lia).
    rewrite !contents_lookup by (trivial; simpl; lia). simpl.
    rewrite buf_get_set_ne; [reflexivity| | |].
    + rewrite Hw. apply Z.mod_pos_bound. lia.
    + apply Z.mod_pos_bound. lia.
    + rewrite Hw. intros E. apply mod_add_inj in E; lia.
  - rewrite lookup_app_r by (rewrite contents_length; lia).
    rewrite contents_length.
    destruct (decide (i = Z.to_nat (m_nbElements f))) as [->|Hne].
    + rewrite contents_lookup by (trivial; simpl; lia). simpl.
      rewrite Nat.sub_diag. simpl. rewrite Z2Nat.id by lia.
      rewrite <- Hw. rewrite buf_get_set_eq; [reflexivity|].
      rewrite Hlen, Hw.
      pose proof (Z.mod_pos_bound (m_readIdx f + m_nbElements f) t_size).
      lia.
    + rewrite !lookup_ge_None_2; [reflexivity| |].
      * simpl. lia.
      * rewrite contents_length. simpl. lia.
Qed.

(** A write into a full buffer drops the oldest element and appends. *)
Lemma push_body_contents_full f c element :
  fifo_wf t_size f -> m_nbElements f = t_size ->
  contents t_size (fst (push_body t_size (f, c) element))
  = drop 1 (contents t_size f) ++ [element].
Proof.
  intros Hwf Hc.
  pose proof (push_body_wf f c element Hwf) as Hwf'.
  pose proof Hwf as [Hlen Hinv].
  pose proof Hinv as (_ & _ & _ & _ & Hfull).
  specialize (Hfull Hc).
  apply fifo_inv_alt in Hinv as (Hn & Hr & Hw).
  pose proof t_size_fits as Hfit.
  revert Hwf'. unfold push_body.
  destruct (decide (m_nbElements f < t_size)) as [|_]; [lia|].
  simpl. rewrite Hfull, next_index by lia. intros Hwf'.
  apply list_eq. intros i.
  destruct (decide (S i < Z.to_nat t_size)%nat) as [Hi|Hi].
  - rewrite lookup_app_l
      by (rewrite length_drop, contents_length; lia).
    rewrite lookup_drop.
    rewrite !contents_lookup by (trivial; simpl; lia). simpl.
    rewrite mod_succ_add by lia.
    replace (m_readIdx f + (1 + Z.of_nat i))
      with (m_readIdx f + Z.of_nat (S i)) by lia.
    rewrite buf_get_set_ne; [reflexivity|lia| |].
    + apply Z.mod_pos_bound. lia.
    + rewrite <- (Z.mod_small (m_readIdx f) t_size) at 1 by lia.
      rewrite <- (Z.add_0_r (m_readIdx f)) at 1.
      intros E. apply mod_add_inj in E; lia.
  - rewrite lookup_app_r
      by (rewrite length_drop, contents_length; lia).
    rewrite length_drop, contents_length.
    destruct (decide (S i = Z.to_nat t_size)) as [Hlast|Hne].
    + rewrite contents_lookup by (trivial; simpl; lia). simpl.
      replace (i - (Z.to_nat (m_nbElements f) - 1))%nat with 0%nat by lia.
      simpl. rewrite mod_succ_add by lia.
      replace (m_readIdx f + (1 + Z.of_nat i))
        with (m_readIdx f + 1 * t_size) by lia.
      rewrite Z.mod_add, Z.mod_small by lia.
      rewrite buf_get_set_eq; [reflexivity|lia].
    + rewrite !lookup_ge_None_2; [reflexivity| |].
      * simpl. lia.
      * rewrite contents_length. simpl. lia.
Qed.

(** *** The loop of [push] *)

(** After the loop the buffer holds the last [t_size] elements of its
    old contents followed by the source, and [nbElementsCopied] has
    grown by the number of free slots that were filled. *)
Lemma push_loop_spec src : forall f c,
  fifo_wf t_size f -> 0 <= c ->
  c + (t_size - m_nbElements f) < SIZE_MODULUS ->
  m_nbElements (fst (fold_left (push_body t_size) src (f, c)))
  = Z.min t_size (m_nbElements f + Z.of_nat (length src))
  /\ snd (fold_left (push_body t_size) src (f, c))
    = c + Z.min (Z.of_nat (length src)) (t_size - m_nbElements f)
  /\ contents t_size (fst (fold_left (push_body t_size) src (f, c)))
    = drop (length (contents t_size f ++ src) - Z.to_nat t_size)
           (contents t_size f ++ src).
Proof.
  induction src as [|x src IH]; intros f c Hwf Hc0 Hc;
    pose proof Hwf as [_ (Hn & _)]; cbn [fold_left].
  - simpl. rewrite app_nil_r, contents_length.
    repeat split; try lia.
    replace (Z.to_nat (m_nbElements f) - Z.to_nat t_size)%nat
      with 0%nat by lia.
    reflexivity.
  - pose proof (push_body_wf f c x Hwf) as Hwf1.
    pose proof (push_body_count f c x) as Hc1.
    destruct (decide (m_nbElements f < t_size)) as [Hlt|Hge].
    + pose proof (push_body_contents_free f c x Hwf Hlt) as Hcont.
      assert (m_nbElements (fst (push_body t_size (f, c) x))
              = m_nbElements f + 1) as Hn1.
      { unfold push_body.
        destruct (decide (m_nbElements f < t_size)); [|lia].
        simpl. apply size_add_small. pose proof t_size_fits. lia. }
      rewrite size_add_small in Hc1 by lia.
      destruct (push_body t_size (f, c) x) as [f1 c1].
      simpl in Hwf1, Hc1, Hcont, Hn1. subst c1.
      destruct (IH f1 (c + 1) Hwf1) as (E1 & E2 & E3); [lia|lia|].
      rewrite E1, E2, E3, Hn1, Hcont, <- app_assoc. simpl.
      rewrite Nat2Z.inj_succ. repeat split; lia.
    + assert (m_nbElements f = t_size) as Hfull by lia.
      pose proof (push_body_contents_full f c x Hwf Hfull) as Hcont.
      assert (m_nbElements (fst (push_body t_size (f, c) x)) = t_size)
        as Hn1.
      { unfold push_body.
        destruct (decide (m_nbElements f < t_size)); [lia|]. exact Hfull. }
      destruct (push_body t_size (f, c) x) as [f1 c1].
      simpl in Hwf1, Hc1, Hcont, Hn1. subst c1.
      destruct (IH f1 c Hwf1) as (E1 & E2 & E3); [lia|lia|].
      rewrite E1, E2, E3, Hn1, Hcont, <- app_assoc. simpl.
      rewrite Nat2Z.inj_succ. repeat split; try lia.
      pose proof (contents_length f) as Hl.
      destruct (contents t_size f) as [|y cf]; simpl in Hl; [lia|].
      simpl. rewrite drop_0.
      rewrite !length_app. simpl.
      replace (S (length cf + S (length src)) - Z.to_nat t_size)%nat
        with (S (length cf + S (length src) - Z.to_nat t_size)) by lia.
      reflexivity.
Qed.

(** [push] in full: either the guard declines the call, or the loop
    runs over the whole source. *)
Lemma Fifo_push_spec f src overwrite :
  fifo_wf t_size f ->
  (overwrite = false
   /\ Z.of_nat (length src) > t_size - m_nbElements f
   /\ Fifo_push t_size f src overwrite = (0, f))
  \/
  ((overwrite = true \/ Z.of_nat (length src) <= t_size - m_nbElements f)
   /\ fst (Fifo_push t_size f src overwrite)
      = Z.min (Z.of_nat (length src)) (t_size - m_nbElements f)
   /\ m_nbElements (snd (Fifo_push t_size f src overwrite))
      = Z.min t_size (m_nbElements f + Z.of_nat (length src))
   /\ contents t_size (snd (Fifo_push t_size f src overwrite))
      = drop (length (contents t_size f ++ src) - Z.to_nat t_size)
             (contents t_size f ++ src)).
Proof.
  intros Hwf. pose proof Hwf as [_ (Hn & _)].
  pose proof t_size_fits as Hfit.
  unfold Fifo_push. rewrite size_sub_small by lia.
  destruct (push_loop_spec src f 0 Hwf) as (E1 & E2 & E3); [lia|lia|].
  destruct overwrite; simpl.
  - right. destruct (fold_left _ src _) as [f' c'].
    simpl in *. split; [now left|]. rewrite E2. auto.
  - case_bool_decide as Hg.
    + left. auto.
    + right. destruct (fold_left _ src _) as [f' c'].
      simpl in *. split; [right; lia|]. rewrite E2. auto.
Qed.

(** A push without overwrite that fits appends the source. *)
Lemma Fifo_push_fits f src :
  fifo_wf t_size f ->
  Z.of_nat (length src) <= t_size - m_nbElements f ->
  fst (Fifo_push t_size f src false) = Z.of_nat (length src)
  /\ contents t_size (snd (Fifo_push t_size f src false))
    = contents t_size f ++ src.
Proof.
  intros Hwf Hfit. pose proof Hwf as [_ (Hn & _)].
  destruct (Fifo_push_spec f src false Hwf)
    as [(_ & Hgt & _)|(_ & E1 & _ & E3)]; [lia|].
  rewrite E1, E3. split; [lia|].
  rewrite length_app, contents_length.
  replace (Z.to_nat (m_nbElements f) + length src - Z.to_nat t_size)%nat
    with 0%nat by lia.
  reflexivity.
Qed.

(** *** The loop of [operator==] *)

Lemma eq_loop_spec f other idx otherIdx i :
  0 <= idx < t_size -> 0 <= otherIdx < t_size ->
  eq_loop t_size f other idx otherIdx i = true <->
  (forall j, 0 <= j < m_nbElements f - i ->
     buf_get (m_buffer f) ((idx + j) mod t_size)
     = buf_get (m_buffer other) ((otherIdx + j) mod t_size)).
Proof.
  funelim (eq_loop t_size f other idx otherIdx i); intros Hidx Hoidx;
    clear Heqcall Heq.
  - destruct (decide (buf_get (m_buffer f) idx
                      <> buf_get (m_buffer other) otherIdx)) as [Hne|He].
    + split; [discriminate|]. intros Hall. exfalso. apply Hne.
      specialize (Hall 0 ltac:(lia)).
      now rewrite !Z.add_0_r, !Z.mod_small in Hall by lia.
    + revert H. rewrite !next_index by lia. intros H.
      rewrite (H He) by (apply Z.mod_pos_bound; lia). clear H.
      apply dec_stable in He.
      split; intros Hall j Hj.
      * destruct (decide (j = 0)) as [->|Hj0].
        { now rewrite !Z.add_0_r, !Z.mod_small by lia. }
        specialize (Hall (j - 1) ltac:(lia)).
        rewrite !mod_succ_add in Hall by lia.
        now replace (1 + (j - 1)) with j in Hall by lia.
      * specialize (Hall (1 + j) ltac:(lia)).
        now rewrite !mod_succ_add by lia.
  - split; [|reflexivity]. intros _ j Hj. lia.
Qed.

Lemma Fifo_eq_spec f other :
  fifo_wf t_size f -> fifo_wf t_size other ->
  Fifo_eq t_size f other = true <->
  m_nbElements f = m_nbElements other
  /\ (forall i, 0 <= i < m_nbElements f ->
       Fifo_at t_size f i = Fifo_at t_size other i).
Proof.
  intros [_ (Hn & Hr & _)] [_ (Hn' & Hr' & _)].
  unfold Fifo_eq.
  destruct (decide (m_nbElements f <> m_nbElements other)) as [Hne|He].
  - split; [discriminate|]. intros [E _]. contradiction.
  - assert (m_nbElements f = m_nbElements other) as E by lia.
    rewrite eq_loop_spec by lia. rewrite Z.sub_0_r.
    split.
    + intros Hall. split; [exact E|]. intros i Hi.
      rewrite !Fifo_at_in_range by lia. now apply Hall.
    + intros [_ Hall] j Hj.
      rewrite <- !Fifo_at_in_range by lia. now apply Hall.
Qed.

(** Two buffers hold the same elements in the same order exactly when
    their counts agree and they agree at every logical position. *)
Lemma contents_eq_iff f other :
  0 <= m_nbElements f -> 0 <= m_nbElements other ->
  contents t_size f = contents t_size other <->
  m_nbElements f = m_nbElements other
  /\ (forall i, 0 <= i < m_nbElements f ->
       Fifo_at t_size f i = Fifo_at t_size other i).
Proof.
  intros Hn Hn'. split.
  - intros E.
    assert (m_nbElements f = m_nbElements other) as En.
    { apply (f_equal length) in E. rewrite !contents_length in E. lia. }
    split; [exact En|]. intros i Hi.
    apply (f_equal (fun l => l !! Z.to_nat i)) in E.
    unfold contents in E.
    rewrite !list_lookup_fmap, !lookup_seqZ_lt in E by lia.
    rewrite Z2Nat.id, Z.add_0_l in E by lia. now injection E.
  - intros [En Hall]. unfold contents. rewrite <- En.
    apply list_eq. intros i. rewrite !list_lookup_fmap.
    destruct (seqZ 0 (m_nbElements f) !! i) as [j|] eqn:Ej;
      [|reflexivity].
    apply lookup_seqZ in Ej as [-> Hi]. simpl. f_equal.
    apply Hall. lia.
Qed.

(** *** Series of pushes and pulls *)

Lemma count_of_contents f :
  fifo_wf t_size f ->
  m_nbElements f = Z.of_nat (length (contents t_size f)).
Proof. intros [_ (Hn & _)]. rewrite contents_length. lia. Qed.

Lemma pulled_wf f k :
  fifo_wf t_size f -> 0 <= k <= m_nbElements f ->
  fifo_wf t_size
    (mkFifo (m_buffer f) ((m_readIdx f + k) mod t_size)
            (m_writeIdx f) (m_nbElements f - k)).
Proof.
  intros [Hlen Hinv] Hk. split; [exact Hlen|].
  apply fifo_inv_alt in Hinv as (Hn & Hr & Hw).
  apply fifo_inv_alt. simpl.
  repeat split; try lia; try (apply Z.mod_pos_bound; lia).
  rewrite Z.add_mod_idemp_l by lia. rewrite Hw. f_equal. lia.
Qed.

Lemma take_contents f k :
  fifo_wf t_size f -> 0 <= k <= m_nbElements f ->
  take (Z.to_nat k) (contents t_size f)
  = (fun i => buf_get (m_buffer f) ((m_readIdx f + i) mod t_size))
      <$> seqZ 0 k.
Proof.
  intros Hwf Hk. apply list_eq. intros i.
  rewrite list_lookup_fmap.
  destruct (decide (i < Z.to_nat k)%nat) as [Hi|Hi].
  - rewrite lookup_take_lt by lia.
    rewrite contents_lookup by (trivial; lia).
    rewrite lookup_seqZ_lt by lia. reflexivity.
  - rewrite lookup_take_ge by lia.
    rewrite lookup_seqZ_ge by lia. reflexivity.
Qed.

Lemma pulled_contents f k :
  fifo_wf t_size f -> 0 <= k <= m_nbElements f ->
  contents t_size
    (mkFifo (m_buffer f) ((m_readIdx f + k) mod t_size)
            (m_writeIdx f) (m_nbElements f - k))
  = drop (Z.to_nat k) (contents t_size f).
Proof.
  intros Hwf Hk. pose proof (pulled_wf f k Hwf Hk) as Hwf'.
  pose proof Hwf as [_ (Hn & Hr & _)].
  apply list_eq. intros i. rewrite lookup_drop.
  destruct (decide (i < Z.to_nat (m_nbElements f - k))%nat) as [Hi|Hi].
  - rewrite !contents_lookup by (trivial; simpl; lia). simpl.
    rewrite Z.add_mod_idemp_l by lia. do 3 f_equal. lia.
  - rewrite !lookup_ge_None_2; [reflexivity| |];
      rewrite contents_length; simpl; lia.
Qed.

Lemma total_space_nonneg (reqs : list (list T * Z)) :
  Forall req_ok reqs -> 0 <= total_space reqs.
Proof.
  induction 1 as [|r reqs [Hr _] _ IH]; simpl; [lia|].
  unfold is_size_t in Hr. lia.
Qed.

Lemma push_all_spec srcs : forall f,
  fifo_wf t_size f ->
  m_nbElements f + Z.of_nat (length (concat srcs)) <= t_size ->
  fifo_wf t_size (push_all t_size f srcs)
  /\ contents t_size (push_all t_size f srcs)
     = contents t_size f ++ concat srcs.
Proof.
  induction srcs as [|src srcs IH]; intros f Hwf Hroom; simpl.
  - now rewrite app_nil_r.
  - simpl in Hroom. rewrite length_app in Hroom.
    pose proof (Fifo_push_wf f src false Hwf) as Hwf1.
    destruct (Fifo_push_fits f src Hwf) as [_ Hc1]; [lia|].
    destruct (IH (snd (Fifo_push t_size f src false)) Hwf1) as [Hwf2 Hc2].
    { rewrite (count_of_contents _ Hwf1), Hc1, length_app.
      rewrite (count_of_contents _ Hwf) in Hroom. lia. }
    split; [exact Hwf2|].
    unfold push_all in Hc2 |- *. rewrite Hc2, Hc1.
    now rewrite app_assoc.
Qed.

Lemma pull_all_spec reqs : forall f,
  fifo_wf t_size f -> Forall req_ok reqs ->
  fst (pull_all t_size f reqs)
  = take (Z.to_nat (total_space reqs)) (contents t_size f).
Proof.
  induction reqs as [|[destination availSpace] reqs IH];
    intros f Hwf Hok; simpl.
  - now rewrite take_0.
  - apply Forall_cons in Hok as [[Hav Hroom] Hok]. simpl in Hav, Hroom.
    pose proof (total_space_nonneg reqs Hok) as Htot.
    pose proof Hwf as [_ (Hn & _)]. unfold is_size_t in Hav.
    destruct (Fifo_pull_spec f destination availSpace Hwf Hav)
      as (d' & E & Hd').
    rewrite E. rewrite Hd' by lia. clear E Hd'.
    set (k := Z.min availSpace (m_nbElements f)).
    assert (0 <= k <= m_nbElements f) as Hk by lia.
    specialize (IH _ (pulled_wf f k Hwf Hk) Hok).
    destruct (pull_all t_size _ reqs) as [out f''].
    simpl in IH |- *. subst out.
    rewrite pulled_contents by assumption.
    rewrite take_app_length'
      by (rewrite length_take, contents_length; lia).
    rewrite take_take_drop.
    destruct (decide (availSpace <= m_nbElements f)) as [Hle|Hgt].
    + f_equal. lia.
    + rewrite !take_ge; [reflexivity| |]; rewrite contents_length; lia.
Qed.

End FifoFacts.

(** ** The properties of the specification *)

Section FifoClaims.
Context {T : Type} `{!Inhabited T} `{!EqDecision T}.
Variable t_size : Z.
Hypothesis Hsize : 0 < t_size <= PTRDIFF_MAX.

Implicit Types (f : Fifo T) (src : list T).

Lemma apply_op_wf f o :
  fifo_wf t_size f -> op_ok o -> fifo_wf t_size (apply_op t_size f o).
Proof.
  intros Hwf Hok. destruct o; simpl in *.
  - now apply Fifo_push_wf.
  - now apply Fifo_push_var_wf.
  - now apply Fifo_pop_back_wf.
  - now apply Fifo_pull_wf.
  - now rewrite Fifo_read_pull.
  - now apply Fifo_drop_wf.
  - now apply Fifo_reset_wf.
Qed.

Lemma run_wf ops : forall f,
  fifo_wf t_size f -> Forall op_ok ops -> fifo_wf t_size (run t_size f ops).
Proof.
  induction ops as [|o ops IH]; intros f Hwf Hok; [exact Hwf|].
  apply Forall_cons in Hok as [Ho Hok]. unfold run. cbn [fold_left].
  apply IH; [|exact Hok]. now apply apply_op_wf.
Qed.

Lemma Fifo_read_spec f destination availSpace :
  fifo_wf t_size f -> is_size_t availSpace ->
  Z.min availSpace (m_nbElements f) <= Z.of_nat (length destination) ->
  Fifo_read t_size f destination availSpace
  = (Z.min availSpace (m_nbElements f), f,
     take (Z.to_nat (Z.min availSpace (m_nbElements f))) (contents t_size f)
     ++ drop (Z.to_nat (Z.min availSpace (m_nbElements f))) destination).
Proof.
  intros Hwf Hav Hroom. rewrite Fifo_read_pull.
  destruct (Fifo_pull_spec t_size Hsize f destination availSpace Hwf Hav)
    as (d' & -> & Hd').
  simpl. now rewrite Hd'.
Qed.

Lemma read_times_spec n : forall f destination availSpace,
  fifo_wf t_size f -> is_size_t availSpace ->
  Z.min availSpace (m_nbElements f) <= Z.of_nat (length destination) ->
  read_times t_size n f destination availSpace
  = Fifo_read t_size f destination availSpace.
Proof.
  induction n as [|n IH]; intros f destination availSpace Hwf Hav Hroom;
    [reflexivity|].
  cbn [read_times]. rewrite (Fifo_read_spec f destination) by assumption.
  pose proof Hwf as [_ (Hn & _)]. unfold is_size_t in Hav.
  set (k := Z.to_nat (Z.min availSpace (m_nbElements f))).
  assert (length (take k (contents t_size f)) = k) as Hk.
  { rewrite length_take, contents_length. lia. }
  rewrite IH; try assumption.
  - rewrite Fifo_read_spec; try assumption.
    + fold k. now rewrite drop_app_length'.
    + rewrite length_app, length_drop, Hk. lia.
  - rewrite length_app, length_drop, Hk. lia.
Qed.

(** A write into a full buffer, on the whole state. *)
Lemma push_body_full f c element :
  fifo_wf t_size f -> m_nbElements f = t_size ->
  push_body t_size (f, c) element
  = (mkFifo (buf_set (m_buffer f) (m_readIdx f) element)
            ((m_readIdx f + 1) mod t_size)
            ((m_readIdx f + 1) mod t_size)
            t_size,
     c).
Proof.
  intros Hwf Hfull.
  pose proof Hwf as [_ (_ & Hr & _ & _ & Hw)]. specialize (Hw Hfull).
  unfold push_body.
  destruct (decide (m_nbElements f < t_size)); [lia|].
  rewrite Hw, next_index, Hfull by assumption. reflexivity.
Qed.

(** C1: when [push] is called with [overwrite == false] and the source
    is longer than [t_size - m_nbElements], it returns 0 and the buffer
    (storage, read index, write index, count) is the one it was given.
    A push without overwrite is never partial: either it is declined
    in this way, or the whole source is appended. *)
Theorem C1_push_declined f src :
  fifo_wf t_size f ->
  (Z.of_nat (length src) > t_size - m_nbElements f ->
   Fifo_push t_size f src false = (0, f))
  /\ (Fifo_push t_size f src false = (0, f)
      \/ (fst (Fifo_push t_size f src false) = Z.of_nat (length src)
          /\ contents t_size (snd (Fifo_push t_size f src false))
             = contents t_size f ++ src)).
Proof.
  intros Hwf.
  destruct (Fifo_push_spec t_size Hsize f src false Hwf)
    as [(_ & Hgt & E)|([|Hle] & _)]; [|discriminate|].
  - split; [intros _; exact E|left; exact E].
  - split; [lia|]. right. now apply Fifo_push_fits.
Qed.

(** C2, as the code has it: on an empty buffer of capacity 5, [push] of
    six elements with [overwrite == false] is declined, it copies
    nothing and returns 0; with [overwrite == true] all six are written,
    5 is returned and the buffer holds the last five of them. *)
Theorem C2_push_six_into_five (a b c d e g : T) :
  Fifo_push 5 (Fifo_new 5) [a; b; c; d; e; g] false = (0, Fifo_new 5)
  /\ fst (Fifo_push 5 (Fifo_new 5) [a; b; c; d; e; g] true) = 5
  /\ m_nbElements (snd (Fifo_push 5 (Fifo_new 5) [a; b; c; d; e; g] true))
     = 5
  /\ contents 5 (snd (Fifo_push 5 (Fifo_new 5) [a; b; c; d; e; g] true))
     = [b; c; d; e; g].
Proof. repeat split. Qed.

(** C3: in [push] with [overwrite == true], an element written while
    the buffer is full goes to the slot of the oldest element, the read
    index becomes the new write index, the count stays [t_size] and
    [nbElementsCopied] is not incremented, so that the contents lose
    their first element and gain the new one at the end; the value
    returned is [min(src.size(), t_size - count)] for the count at the
    call. In particular a buffer of capacity 5 full with 1..5, pushed
    11..15 with overwrite, returns 0 and holds 11..15 in order with
    count 5. *)
Theorem C3_push_overwrite f src c element :
  fifo_wf t_size f ->
  (m_nbElements f = t_size ->
   push_body t_size (f, c) element
   = (mkFifo (buf_set (m_buffer f) (m_readIdx f) element)
             ((m_readIdx f + 1) mod t_size)
             ((m_readIdx f + 1) mod t_size)
             t_size,
      c)
   /\ contents t_size (fst (push_body t_size (f, c) element))
      = drop 1 (contents t_size f) ++ [element])
  /\ fst (Fifo_push t_size f src true)
     = Z.min (Z.of_nat (length src)) (t_size - m_nbElements f)
  /\ m_nbElements (snd (Fifo_push t_size f src true))
     = Z.min t_size (m_nbElements f + Z.of_nat (length src))
  /\ (let full :=
        snd (Fifo_push 5 (@Fifo_new Z int_default 5) [1; 2; 3; 4; 5] false) in
      let r := Fifo_push 5 full [11; 12; 13; 14; 15] true in
      @contents Z int_default 5 full = [1; 2; 3; 4; 5]
      /\ fst r = 0
      /\ m_nbElements (snd r) = 5
      /\ @contents Z int_default 5 (snd r) = [11; 12; 13; 14; 15]).
Proof.
  intros Hwf. split; [intros Hfull; split|].
  - now apply push_body_full.
  - now apply push_body_contents_full.
  - destruct (Fifo_push_spec t_size Hsize f src true Hwf)
      as [(Hov & _)|(_ & E1 & E2 & _)]; [discriminate|].
    repeat split; try assumption; reflexivity.
Qed.

(** C4: on an empty buffer, after a series of pushes without overwrite
    whose sources together fit the capacity, a series of pulls delivers
    the pushed elements in the order they were pushed: what the pulls
    deliver is the concatenation of the sources, cut at the total room
    the pulls offered, and all of it when that room suffices. *)
Theorem C4_fifo_order f (srcs : list (list T)) (reqs : list (list T * Z)) :
  fifo_wf t_size f -> m_nbElements f = 0 ->
  Z.of_nat (length (concat srcs)) <= t_size ->
  Forall req_ok reqs ->
  fst (pull_all t_size (push_all t_size f srcs) reqs)
  = take (Z.to_nat (total_space reqs)) (concat srcs)
  /\ (Z.of_nat (length (concat srcs)) <= total_space reqs ->
      fst (pull_all t_size (push_all t_size f srcs) reqs) = concat srcs).
Proof.
  intros Hwf Hempty Hroom Hok.
  destruct (push_all_spec t_size Hsize srcs f Hwf) as [Hwf' Hc]; [lia|].
  assert (contents t_size f = []) as Hnil.
  { apply nil_length_inv. rewrite contents_length. lia. }
  rewrite Hnil in Hc. simpl in Hc.
  rewrite (pull_all_spec t_size Hsize reqs _ Hwf' Hok), Hc.
  split; [reflexivity|]. intros Hall. apply take_ge. lia.
Qed.

(** C5: every state reached from a freshly constructed buffer by a
    sequence of push, pop, pull, read, drop and reset operations has
    [0 <= count <= t_size], both indices in [[0, t_size)], the write
    index [count] slots after the read index modulo [t_size] when
    [count < t_size], and equal to the read index when
    [count == t_size]. *)
Theorem C5_invariant (ops : list op) :
  Forall op_ok ops ->
  let f := run t_size (Fifo_new (T:=T) t_size) ops in
  0 <= m_nbElements f <= t_size
  /\ 0 <= m_readIdx f < t_size
  /\ 0 <= m_writeIdx f < t_size
  /\ (m_nbElements f < t_size ->
      m_writeIdx f = (m_readIdx f + m_nbElements f) mod t_size)
  /\ (m_nbElements f = t_size -> m_writeIdx f = m_readIdx f).
Proof.
  intros Hok.
  exact (proj2 (run_wf ops _ (Fifo_new_wf t_size Hsize) Hok)).
Qed.

(** C6: [pull] copies [min(availSpace, count)] elements to the
    destination, those at [readIdx], [readIdx + 1], ... modulo [t_size]
    in that order, moves the read index on and lowers the count by that
    number, and returns that number. With [availSpace == 0] it returns 0
    and changes nothing; on a count of 4 with [availSpace == 10] it
    returns 4 and leaves a count of 0. *)
Theorem C6_pull f destination availSpace :
  fifo_wf t_size f -> is_size_t availSpace ->
  let k := Z.min availSpace (m_nbElements f) in
  fst (Fifo_pull t_size f destination availSpace)
  = (k, mkFifo (m_buffer f) ((m_readIdx f + k) mod t_size)
               (m_writeIdx f) (m_nbElements f - k))
  /\ (k <= Z.of_nat (length destination) ->
      snd (Fifo_pull t_size f destination availSpace)
      = ((fun i => buf_get (m_buffer f) ((m_readIdx f + i) mod t_size))
           <$> seqZ 0 k)
        ++ drop (Z.to_nat k) destination)
  /\ Fifo_pull t_size f destination 0 = (0, f, destination)
  /\ (m_nbElements f = 4 -> availSpace = 10 ->
      fst (fst (Fifo_pull t_size f destination availSpace)) = 4
      /\ m_nbElements (snd (fst (Fifo_pull t_size f destination availSpace)))
         = 0).
Proof.
  intros Hwf Hav k.
  pose proof Hwf as [_ (Hn & _)]. unfold is_size_t in Hav.
  destruct (Fifo_pull_spec t_size Hsize f destination availSpace Hwf Hav)
    as (d' & E & Hd').
  fold k in E, Hd'. rewrite E. simpl.
  split; [reflexivity|]. split; [|split].
  - intros Hroom. rewrite Hd' by assumption.
    rewrite take_contents by (trivial; lia). reflexivity.
  - unfold Fifo_pull. simp pull_loop.
    destruct (decide (0 > 0 /\ m_nbElements f > 0)) as [H0|H0];
      [lia|reflexivity].
  - intros H4 H10. split; lia.
Qed.

(** C7: [read] writes to the destination what [pull] writes and returns
    what [pull] returns on the same buffer, and leaves the buffer as it
    was; called again any number of times with the same arguments it
    gives the same output. *)
Theorem C7_read f destination availSpace :
  Fifo_read t_size f destination availSpace
  = (fst (fst (Fifo_pull t_size f destination availSpace)), f,
     snd (Fifo_pull t_size f destination availSpace))
  /\ (fifo_wf t_size f -> is_size_t availSpace ->
      Z.min availSpace (m_nbElements f) <= Z.of_nat (length destination) ->
      forall n,
        read_times t_size n f destination availSpace
        = Fifo_read t_size f destination availSpace).
Proof.
  split; [apply Fifo_read_pull|].
  intros Hwf Hav Hroom n. now apply read_times_spec.
Qed.

(** C8: on a count of zero [pop_back] returns false and leaves the
    destination and the buffer alone; otherwise it copies the element
    at the read index to the destination, sets the read index to
    [(readIdx + 1) mod t_size], lowers the count by one and returns
    true. *)
Theorem C8_pop_back f dest :
  fifo_inv t_size f ->
  (m_nbElements f = 0 -> Fifo_pop_back t_size f dest = (false, f, dest))
  /\ (m_nbElements f <> 0 ->
      Fifo_pop_back t_size f dest
      = (true,
         mkFifo (m_buffer f) ((m_readIdx f + 1) mod t_size)
                (m_writeIdx f) (m_nbElements f - 1),
         buf_get (m_buffer f) (m_readIdx f))).
Proof.
  intros (Hn & Hr & _). pose proof (t_size_fits t_size Hsize) as Hfit.
  unfold Fifo_pop_back.
  destruct (decide (m_nbElements f <> 0)) as [Hc|Hc].
  - split; [intros E; contradiction|]. intros _.
    rewrite next_index, size_sub_small by lia. reflexivity.
  - split; [reflexivity|]. intros E. contradiction.
Qed.

(** C9: [operator==] is true exactly when the two buffers have the same
    count and equal elements at every logical position below it, that
    is, when they hold the same sequence in read order; where the
    indices of the two buffers stand plays no part. *)
Theorem C9_equality f other :
  fifo_wf t_size f -> fifo_wf t_size other ->
  (Fifo_eq t_size f other = true <->
   m_nbElements f = m_nbElements other
   /\ (forall i, 0 <= i < m_nbElements f ->
        Fifo_at t_size f i = Fifo_at t_size other i))
  /\ (Fifo_eq t_size f other = true <->
      contents t_size f = contents t_size other).
Proof.
  intros Hwf Hwf'.
  pose proof (Fifo_eq_spec t_size Hsize f other Hwf Hwf') as Hspec.
  split; [exact Hspec|].
  rewrite Hspec. symmetry.
  destruct Hwf as [_ (Hn & _)], Hwf' as [_ (Hn' & _)].
  apply contents_eq_iff; lia.
Qed.

(** C10: on a full buffer [push(var, true)] returns false although it
    writes: [var] takes the slot of the oldest element and the read
    index moves on with the write index, so the contents lose their
    first element and end with [var]. *)
Theorem C10_push_var_full f var :
  fifo_wf t_size f -> m_nbElements f = t_size ->
  Fifo_push_var t_size f var true
  = (false,
     mkFifo (buf_set (m_buffer f) (m_readIdx f) var)
            ((m_readIdx f + 1) mod t_size)
            ((m_readIdx f + 1) mod t_size)
            t_size)
  /\ contents t_size (snd (Fifo_push_var t_size f var true))
     = drop 1 (contents t_size f) ++ [var].
Proof.
  intros Hwf Hfull.
  pose proof (push_body_contents_full t_size Hsize f 0 var Hwf Hfull) as Hc.
  revert Hc. unfold Fifo_push_var, Fifo_push_ptr, Fifo_push.
  change (take (Z.to_nat 1) [var]) with [var].
  cbn [negb andb fold_left].
  rewrite (push_body_full f 0 var Hwf Hfull). simpl.
  intros Hc. split; [reflexivity|exact Hc].
Qed.

End FifoClaims.

(** ** The buffers of the test suite *)

Section Tests.
#[local] Existing Instance int_default.

Lemma capacity_4 : 0 < 4 <= PTRDIFF_MAX.
Proof. vm_compute. split; [reflexivity|discriminate]. Qed.

Lemma capacity_5 : 0 < 5 <= PTRDIFF_MAX.
Proof. vm_compute. split; [reflexivity|discriminate]. Qed.

Lemma capacity_7 : 0 < 7 <= PTRDIFF_MAX.
Proof. vm_compute. split; [reflexivity|discriminate]. Qed.

Ltac concrete :=
  repeat split; vm_compute; intros;
  first [reflexivity | discriminate | congruence].

(** [test_fifo_initial_state] *)
Example test_fifo_initial_state :
  let fifo := Fifo_new 5 in
  fifo = mkFifo [0; 0; 0; 0; 0] 0 0 0
  /\ Fifo_getCount fifo = 0
  /\ Fifo_pop_back 5 fifo 77 = (false, fifo, 77)
  /\ fst (fst (Fifo_read 5 fifo [77] 1)) = 0.
Proof. concrete. Qed.

(** [test_fifo_init_with_list] *)
Example test_fifo_init_with_list :
  let fifo := Fifo_of_list 5 [1; 2; 3] in
  Fifo_getCount fifo = 3 /\ Fifo_at 5 fifo 2 = 3.
Proof. concrete. Qed.

(** [test_fifo_overflow] *)
Example test_fifo_overflow :
  let '(pushed, fifo) := Fifo_push 5 (Fifo_new 5) [1; 2; 3; 4; 5; 6] true in
  pushed = 5 /\ Fifo_getCount fifo = 5
  /\ Fifo_at 5 fifo 0 = 2 /\ Fifo_at 5 fifo 4 = 6
  /\ fst (Fifo_push_var 5 fifo 1984 false) = false.
Proof. concrete. Qed.

(** [test_equality]: three buffers with different indices, equal. *)
Example test_equality :
  let fifo_0 := Fifo_of_list 5 [1; 2; 3] in
  let fifo_2 := snd (fst (Fifo_pop_back 5 (Fifo_of_list 5 [0; 1; 2; 3]) 0)) in
  let fifo_3 :=
    snd (fst (Fifo_pull 5
                (snd (Fifo_push 5 (Fifo_of_list 5 [0; 0; 0; 0]) [1; 2; 3] true))
                [0; 0; 0] 2)) in
  Fifo_eq 5 fifo_0 fifo_2 = true /\ Fifo_eq 5 fifo_0 fifo_3 = true
  /\ m_readIdx fifo_0 = 0 /\ m_readIdx fifo_2 = 1 /\ m_readIdx fifo_3 = 4.
Proof. concrete. Qed.

(** [test_drop] *)
Example test_drop :
  let fifo := Fifo_of_list 5 [0; 1; 2; 3] in
  let '(d1, fifo1) := Fifo_drop 5 fifo 1 in
  let '(d2, fifo2) := Fifo_drop 5 fifo1 10 in
  let '(d3, fifo3) := Fifo_drop 5 fifo2 4 in
  Fifo_eq 5 (snd (Fifo_drop 5 fifo 0)) (Fifo_of_list 5 [0; 1; 2; 3]) = true
  /\ d1 = 1 /\ Fifo_eq 5 fifo1 (Fifo_of_list 5 [1; 2; 3]) = true
  /\ d2 = 3 /\ Fifo_getCount fifo2 = 0
  /\ d3 = 0 /\ Fifo_eq 5 fifo3 (Fifo_new 5) = true.
Proof. concrete. Qed.

(** C2, as the specification states it, fails: the push of six
    elements into the empty buffer of capacity 5 without overwrite
    returns 0, not 5, and leaves the buffer empty. *)
Lemma C2_counterexample :
  Fifo_push 5 (Fifo_new 5) [1; 2; 3; 4; 5; 6] false = (0, Fifo_new 5)
  /\ ~ (fst (Fifo_push 5 (Fifo_new 5) [1; 2; 3; 4; 5; 6] false) = 5
        /\ contents 5 (snd (Fifo_push 5 (Fifo_new 5) [1; 2; 3; 4; 5; 6] false))
           = [1; 2; 3; 4; 5]).
Proof. split; [reflexivity|]. intros [H _]. vm_compute in H. discriminate H. Qed.

Lemma C1_witness :
  let f := Fifo_of_list 5 [1; 2; 3] in
  fifo_wf 5 f
  /\ Z.of_nat (length [7; 8; 9]) > 5 - m_nbElements f
  /\ Fifo_push 5 f [7; 8; 9] false = (0, f).
Proof.
  intros f.
  assert (fifo_wf 5 f) as Hwf by concrete.
  assert (Z.of_nat (length [7; 8; 9]) > 5 - m_nbElements f) as Hgt
    by reflexivity.
  split; [exact Hwf|]. split; [exact Hgt|].
  exact (proj1 (C1_push_declined 5 capacity_5 f [7; 8; 9] Hwf) Hgt).
Defined.

Lemma C3_witness :
  let f := Fifo_of_list 5 [1; 2; 3; 4; 5] in
  fifo_wf 5 f /\ m_nbElements f = 5
  /\ push_body 5 (f, 0) 11 = (mkFifo [11; 2; 3; 4; 5] 1 1 5, 0)
  /\ contents 5 (fst (push_body 5 (f, 0) 11)) = [2; 3; 4; 5; 11]
  /\ fst (Fifo_push 5 f [11; 12; 13; 14; 15] true) = 0.
Proof.
  intros f.
  assert (fifo_wf 5 f) as Hwf by concrete.
  assert (m_nbElements f = 5) as Hfull by reflexivity.
  split; [exact Hwf|]. split; [exact Hfull|].
  destruct (C3_push_overwrite 5 capacity_5 f [11; 12; 13; 14; 15] 0 11 Hwf)
    as (Hstep & Hret & _).
  destruct (Hstep Hfull) as [Hbody Hcont].
  split; [exact Hbody|]. split; [exact Hcont|exact Hret].
Defined.

Lemma C4_witness :
  let f := Fifo_new 5 in
  let srcs := [[1; 2]; [3]; [4; 5]] in
  let reqs := [([0; 0], 2); ([0; 0; 0; 0], 4)] in
  fifo_wf 5 f /\ m_nbElements f = 0
  /\ Z.of_nat (length (concat srcs)) <= 5
  /\ Forall req_ok reqs
  /\ fst (pull_all 5 (push_all 5 f srcs) reqs) = [1; 2; 3; 4; 5].
Proof.
  intros f srcs reqs.
  assert (fifo_wf 5 f) as Hwf by concrete.
  assert (Z.of_nat (length (concat srcs)) <= 5) as Hroom by discriminate.
  assert (Forall req_ok reqs) as Hok by (repeat constructor; discriminate).
  split; [exact Hwf|]. split; [reflexivity|].
  split; [exact Hroom|]. split; [exact Hok|].
  apply (C4_fifo_order 5 capacity_5 f srcs reqs Hwf eq_refl Hroom Hok).
  discriminate.
Defined.

Lemma C5_witness :
  let ops :=
    [OpPush [1; 2; 3; 4] false; OpPop 0; OpPushVar 9 true;
     OpPush [5; 6; 7] true; OpPull [0; 0] 2; OpRead [0] 1;
     OpDrop 1; OpPushVar 8 false] in
  let f := run 5 (Fifo_new 5) ops in
  Forall op_ok ops
  /\ 0 <= m_nbElements f <= 5
  /\ 0 <= m_readIdx f < 5
  /\ 0 <= m_writeIdx f < 5
  /\ (m_nbElements f < 5 ->
      m_writeIdx f = (m_readIdx f + m_nbElements f) mod 5)
  /\ (m_nbElements f = 5 -> m_writeIdx f = m_readIdx f).
Proof.
  intros ops f.
  assert (Forall op_ok ops) as Hok
    by (repeat constructor; vm_compute; discriminate).
  split; [exact Hok|].
  exact (C5_invariant 5 capacity_5 ops Hok).
Defined.

Lemma C6_witness :
  let f := Fifo_of_list 7 [0; 1; 2; 3] in
  let destination := [9; 9; 9; 9; 9; 9; 9; 9; 9; 9] in
  fifo_wf 7 f /\ is_size_t 10
  /\ Fifo_pull 7 f destination 10
     = (4, mkFifo (m_buffer f) 4 4 0, [0; 1; 2; 3; 9; 9; 9; 9; 9; 9])
  /\ Fifo_pull 7 f destination 0 = (0, f, destination).
Proof.
  intros f destination.
  assert (fifo_wf 7 f) as Hwf by concrete.
  assert (is_size_t 10) as Hav by concrete.
  split; [exact Hwf|]. split; [exact Hav|].
  destruct (C6_pull 7 capacity_7 f destination 10 Hwf Hav)
    as (Hst & Hdst & Hzero & _).
  split; [|exact Hzero].
  specialize (Hdst ltac:(discriminate)).
  destruct (Fifo_pull 7 f destination 10) as [st d].
  simpl in Hst, Hdst. rewrite Hst, Hdst. reflexivity.
Defined.

Lemma C7_witness :
  let f := snd (Fifo_push 4 (Fifo_of_list 4 [0; 0; 0; 0]) [1; 2; 3] true) in
  let destination := [170; 0; 0; 0; 0; 0; 0; 0; 0; 0] in
  fifo_wf 4 f /\ is_size_t 10
  /\ Z.min 10 (m_nbElements f) <= Z.of_nat (length destination)
  /\ Fifo_read 4 f destination 10
     = (fst (fst (Fifo_pull 4 f destination 10)), f,
        snd (Fifo_pull 4 f destination 10))
  /\ read_times 4 3 f destination 10 = Fifo_read 4 f destination 10
  /\ Fifo_read 4 f destination 10 = (4, f, [0; 1; 2; 3; 0; 0; 0; 0; 0; 0]).
Proof.
  intros f destination.
  assert (fifo_wf 4 f) as Hwf by concrete.
  assert (is_size_t 10) as Hav by concrete.
  assert (Z.min 10 (m_nbElements f) <= Z.of_nat (length destination))
    as Hroom by discriminate.
  split; [exact Hwf|]. split; [exact Hav|]. split; [exact Hroom|].
  destruct (C7_read 4 capacity_4 f destination 10) as [Hpull Hagain].
  split; [exact Hpull|].
  split; [exact (Hagain Hwf Hav Hroom 3%nat)|reflexivity].
Defined.

Lemma C8_witness :
  let f := Fifo_of_list 5 [42] in
  let empty : Fifo Z := Fifo_new 5 in
  fifo_inv 5 f /\ fifo_inv 5 empty
  /\ Fifo_pop_back 5 f 0 = (true, mkFifo (m_buffer f) 1 1 0, 42)
  /\ Fifo_pop_back 5 empty 7 = (false, empty, 7).
Proof.
  intros f empty.
  assert (fifo_inv 5 f) as Hinv by concrete.
  assert (fifo_inv 5 empty) as Hinv0 by concrete.
  split; [exact Hinv|]. split; [exact Hinv0|]. split.
  - exact (proj2 (C8_pop_back 5 capacity_5 f 0 Hinv) ltac:(discriminate)).
  - exact (proj1 (C8_pop_back 5 capacity_5 empty 7 Hinv0) eq_refl).
Defined.

Lemma C9_witness :
  let fifo_0 := Fifo_of_list 5 [1; 2; 3] in
  let fifo_3 :=
    snd (fst (Fifo_pull 5
                (snd (Fifo_push 5 (Fifo_of_list 5 [0; 0; 0; 0]) [1; 2; 3] true))
                [0; 0; 0] 2)) in
  fifo_wf 5 fifo_0 /\ fifo_wf 5 fifo_3
  /\ m_readIdx fifo_0 <> m_readIdx fifo_3
  /\ contents 5 fifo_0 = contents 5 fifo_3
  /\ Fifo_eq 5 fifo_0 fifo_3 = true.
Proof.
  intros fifo_0 fifo_3.
  assert (fifo_wf 5 fifo_0) as Hwf0 by concrete.
  assert (fifo_wf 5 fifo_3) as Hwf3 by concrete.
  assert (contents 5 fifo_0 = contents 5 fifo_3) as Hc by reflexivity.
  split; [exact Hwf0|]. split; [exact Hwf3|].
  split; [discriminate|]. split; [exact Hc|].
  exact (proj2 (proj2 (C9_equality 5 capacity_5 fifo_0 fifo_3 Hwf0 Hwf3)) Hc).
Defined.

Lemma C10_witness :
  let f := Fifo_of_list 5 [1; 2; 3; 4; 5] in
  fifo_wf 5 f /\ m_nbElements f = 5
  /\ Fifo_push_var 5 f 1984 true = (false, mkFifo [1984; 2; 3; 4; 5] 1 1 5)
  /\ contents 5 (snd (Fifo_push_var 5 f 1984 true)) = [2; 3; 4; 5; 1984].
Proof.
  intros f.
  assert (fifo_wf 5 f) as Hwf by concrete.
  split; [exact Hwf|]. split; [reflexivity|].
  exact (C10_push_var_full 5 capacity_5 f 1984 Hwf eq_refl).
Defined.

End Tests.

(** ** Further properties of the class *)

Section FifoMore.
Context {T : Type} `{!Inhabited T} `{!EqDecision T}.
Variable t_size : Z.
Hypothesis Hsize : 0 < t_size <= PTRDIFF_MAX.

Implicit Types (f : Fifo T) (src : list T).

(** The single-element overload is the span overload on a span of one. *)
Lemma Fifo_push_var_eq f var overwrite :
  Fifo_push_var t_size f var overwrite
  = (bool_decide (fst (Fifo_push t_size f [var] overwrite) <> 0),
     snd (Fifo_push t_size f [var] overwrite)).
Proof.
  unfold Fifo_push_var, Fifo_push_ptr.
  change (take (Z.to_nat 1) [var]) with [var].
  now destruct (Fifo_push t_size f [var] overwrite).
Qed.

(** A push without overwrite leaves the read index where it is. *)
Lemma Fifo_push_keeps_readIdx src : forall f c,
  fifo_wf t_size f ->
  Z.of_nat (length src) <= t_size - m_nbElements f ->
  m_readIdx (fst (fold_left (push_body t_size) src (f, c))) = m_readIdx f.
Proof.
  induction src as [|x src IH]; intros f c Hwf Hroom; cbn [fold_left];
    [reflexivity|].
  simpl in Hroom.
  pose proof (push_body_wf t_size Hsize f c x Hwf) as Hwf1.
  pose proof Hwf as [_ (Hn & _)].
  pose proof (t_size_fits t_size Hsize) as Hfit.
  assert (m_readIdx (fst (push_body t_size (f, c) x)) = m_readIdx f
          /\ m_nbElements (fst (push_body t_size (f, c) x))
             = m_nbElements f + 1) as [Hr1 Hn1].
  { unfold push_body.
    destruct (decide (m_nbElements f < t_size)); [|lia].
    simpl. split; [reflexivity|]. apply size_add_small. lia. }
  destruct (push_body t_size (f, c) x) as [f1 c1]. simpl in *.
  rewrite IH; [exact Hr1|exact Hwf1|lia].
Qed.

Lemma Fifo_push_fits_readIdx f src :
  fifo_wf t_size f ->
  Z.of_nat (length src) <= t_size - m_nbElements f ->
  m_readIdx (snd (Fifo_push t_size f src false)) = m_readIdx f.
Proof.
  intros Hwf Hroom. pose proof Hwf as [_ (Hn & _)].
  pose proof (t_size_fits t_size Hsize) as Hfit.
  pose proof (Fifo_push_keeps_readIdx src f 0 Hwf Hroom) as H.
  unfold Fifo_push. rewrite size_sub_small by lia. simpl.
  case_bool_decide; [lia|].
  now destruct (fold_left _ src _).
Qed.

(** What a single push does, by whether the buffer has a free slot. *)
Lemma push_var_spec f var overwrite :
  fifo_wf t_size f ->
  fst (Fifo_push_var t_size f var overwrite)
  = bool_decide (m_nbElements f < t_size)
  /\ (m_nbElements f < t_size ->
      contents t_size (snd (Fifo_push_var t_size f var overwrite))
      = contents t_size f ++ [var]
      /\ m_readIdx (snd (Fifo_push_var t_size f var overwrite)) = m_readIdx f)
  /\ (m_nbElements f = t_size -> overwrite = false ->
      snd (Fifo_push_var t_size f var overwrite) = f).
Proof.
  intros Hwf. pose proof Hwf as [_ (Hn & _)].
  rewrite Fifo_push_var_eq. cbn [fst snd].
  destruct (Fifo_push_spec t_size Hsize f [var] overwrite Hwf)
    as [(Hov & Hgt & E)|(Hcase & E1 & _ & E3)];
    cbn [length] in *.
  - rewrite E. cbn [fst snd].
    rewrite (bool_decide_eq_false_2 (0 <> 0)) by lia.
    rewrite bool_decide_eq_false_2 by lia.
    repeat split; lia.
  - rewrite E1, E3. split; [|split].
    + destruct (decide (m_nbElements f < t_size)).
      * rewrite Z.min_l by lia.
        now rewrite !bool_decide_eq_true_2 by lia.
      * rewrite Z.min_r by lia.
        rewrite (bool_decide_eq_false_2 (m_nbElements f < t_size)) by lia.
        apply bool_decide_eq_false_2. lia.
    + intros Hlt. rewrite length_app, contents_length. cbn [length].
      replace (Z.to_nat (m_nbElements f) + 1 - Z.to_nat t_size)%nat
        with 0%nat by lia.
      split; [reflexivity|].
      destruct overwrite.
      * pose proof (Fifo_push_keeps_readIdx [var] f 0 Hwf) as H.
        cbn [fold_left length] in H. unfold Fifo_push.
        cbn [negb andb fold_left].
        destruct (push_body t_size (f, 0) var). apply H. lia.
      * apply Fifo_push_fits_readIdx; [exact Hwf|cbn [length]; lia].
    + intros Hfull ->. destruct Hcase; [discriminate|lia].
Qed.

(** The constructor's loop from any buffer: single pushes without
    overwrite fill the free slots and decline the rest. *)
Lemma push_vars_spec (l : list T) : forall f,
  fifo_wf t_size f ->
  fifo_wf t_size
    (fold_left (fun f item => snd (Fifo_push_var t_size f item false)) l f)
  /\ contents t_size
       (fold_left (fun f item => snd (Fifo_push_var t_size f item false)) l f)
     = take (Z.to_nat t_size) (contents t_size f ++ l)
  /\ m_readIdx
       (fold_left (fun f item => snd (Fifo_push_var t_size f item false)) l f)
     = m_readIdx f.
Proof.
  induction l as [|x l IH]; intros f Hwf; cbn [fold_left];
    pose proof Hwf as [_ (Hn & _)].
  - split; [exact Hwf|]. split; [|reflexivity].
    rewrite app_nil_r, take_ge; [reflexivity|].
    rewrite contents_length. lia.
  - pose proof (Fifo_push_var_wf t_size Hsize f x false Hwf) as Hwf1.
    destruct (IH _ Hwf1) as (Hwf2 & Hc2 & Hr2).
    split; [exact Hwf2|]. rewrite Hc2, Hr2.
    destruct (push_var_spec f x false Hwf) as (_ & Hfree & Hfull).
    destruct (decide (m_nbElements f < t_size)) as [Hlt|Hge].
    + destruct (Hfree Hlt) as [-> ->]. now rewrite <- app_assoc.
    + rewrite Hfull by (trivial; lia). split; [|reflexivity].
      rewrite !take_app_le by (rewrite contents_length; lia).
      reflexivity.
Qed.

Lemma contents_empty f : m_nbElements f = 0 -> contents t_size f = [].
Proof. intros E. unfold contents. rewrite E. reflexivity. Qed.

Lemma Fifo_of_list_spec (initList : list T) :
  fifo_wf t_size (Fifo_of_list t_size initList)
  /\ contents t_size (Fifo_of_list t_size initList)
     = take (Z.to_nat t_size) initList
  /\ m_readIdx (Fifo_of_list t_size initList) = 0.
Proof.
  unfold Fifo_of_list.
  destruct (push_vars_spec initList (Fifo_new t_size)
              (Fifo_new_wf t_size Hsize)) as (Hwf & Hc & Hr).
  split; [exact Hwf|]. split; [|exact Hr].
  rewrite Hc. rewrite (contents_empty (Fifo_new t_size)) by reflexivity.
  reflexivity.
Qed.


Lemma Fifo_drop_spec f size :
  fifo_wf t_size f -> is_size_t size ->
  Fifo_drop t_size f size
  = (Z.min size (m_nbElements f),
     mkFifo (m_buffer f)
            ((m_readIdx f + Z.min size (m_nbElements f)) mod t_size)
            (m_writeIdx f)
            (m_nbElements f - Z.min size (m_nbElements f))).
Proof.
  intros [_ (Hn & Hr & _)] Hs. unfold is_size_t in Hs.
  pose proof (t_size_fits t_size Hsize) as Hfit.
  unfold Fifo_drop. rewrite (Z.min_comm (m_nbElements f)).
  rewrite size_add_small, size_sub_small by lia. reflexivity.
Qed.

Lemma drop_min_contents f k :
  0 <= m_nbElements f ->
  drop (Z.to_nat (Z.min k (m_nbElements f))) (contents t_size f)
  = drop (Z.to_nat k) (contents t_size f).
Proof.
  intros Hn. destruct (decide (k <= m_nbElements f)) as [Hle|Hgt].
  - now rewrite Z.min_l by lia.
  - rewrite Z.min_r by lia.
    rewrite !drop_ge; [reflexivity| |]; rewrite contents_length; lia.
Qed.

Lemma Fifo_pop_back_spec f dest :
  fifo_wf t_size f ->
  fifo_wf t_size (snd (fst (Fifo_pop_back t_size f dest)))
  /\ contents t_size (snd (fst (Fifo_pop_back t_size f dest)))
     = drop 1 (contents t_size f)
  /\ fst (fst (Fifo_pop_back t_size f dest))
     = bool_decide (m_nbElements f <> 0)
  /\ snd (Fifo_pop_back t_size f dest) = hd dest (contents t_size f).
Proof.
  intros Hwf. pose proof Hwf as [_ (Hn & _)].
  split; [now apply Fifo_pop_back_wf|].
  unfold Fifo_pop_back.
  destruct (decide (m_nbElements f <> 0)) as [Hc|Hc]; cbn [fst snd].
  - rewrite (contents_cons t_size Hsize f Hwf) by lia.
    rewrite bool_decide_eq_true_2 by assumption. now repeat split.
  - rewrite contents_empty by lia.
    rewrite bool_decide_eq_false_2 by assumption. now repeat split.
Qed.

(** X1: the constructor from an initializer list keeps the first
    [t_size] elements of the list, in order, with the read index at 0:
    the elements beyond the capacity are declined one by one, and the
    assertion on the size of the list does not stop them. *)
Theorem of_list_contents (initList : list T) :
  fifo_wf t_size (Fifo_of_list t_size initList)
  /\ contents t_size (Fifo_of_list t_size initList)
     = take (Z.to_nat t_size) initList
  /\ m_readIdx (Fifo_of_list t_size initList) = 0
  /\ Fifo_getCount (Fifo_of_list t_size initList)
     = Z.min (Z.of_nat (length initList)) t_size.
Proof.
  destruct (Fifo_of_list_spec initList) as (Hwf & Hc & Hr).
  repeat split; try assumption; try apply Hwf.
  unfold Fifo_getCount. rewrite (count_of_contents t_size _ Hwf), Hc.
  rewrite length_take. lia.
Qed.

(** X2: [push(var, overwrite)] returns true exactly when the buffer has a
    free slot, in both modes. With a free slot [var] is appended and the
    read index stays; on a full buffer without overwrite nothing
    changes. *)
Theorem push_var_result f var overwrite :
  fifo_wf t_size f ->
  fst (Fifo_push_var t_size f var overwrite)
  = bool_decide (m_nbElements f < t_size)
  /\ (m_nbElements f < t_size ->
      contents t_size (snd (Fifo_push_var t_size f var overwrite))
      = contents t_size f ++ [var]
      /\ m_readIdx (snd (Fifo_push_var t_size f var overwrite)) = m_readIdx f)
  /\ (m_nbElements f = t_size -> overwrite = false ->
      snd (Fifo_push_var t_size f var overwrite) = f).
Proof. apply push_var_spec. Qed.

(** X3: after [push] with [overwrite == true] the buffer holds the last
    [t_size] elements of its old contents followed by the source; when
    the source alone has [t_size] elements or more, its last [t_size]. *)
Theorem push_overwrite_keeps_newest f src :
  fifo_wf t_size f ->
  contents t_size (snd (Fifo_push t_size f src true))
  = drop (length (contents t_size f ++ src) - Z.to_nat t_size)
         (contents t_size f ++ src)
  /\ (t_size <= Z.of_nat (length src) ->
      contents t_size (snd (Fifo_push t_size f src true))
      = drop (length src - Z.to_nat t_size) src).
Proof.
  intros Hwf.
  destruct (Fifo_push_spec t_size Hsize f src true Hwf)
    as [(Hov & _)|(_ & _ & _ & E)]; [discriminate|].
  split; [exact E|]. intros Hlong. rewrite E.
  rewrite drop_app_ge by (rewrite length_app; lia).
  f_equal. rewrite length_app. lia.
Qed.

(** X4: [pop_back] hands out the oldest element and leaves the rest in
    order; it returns true exactly when the buffer was not empty. *)
Theorem pop_back_oldest f dest :
  fifo_wf t_size f ->
  fst (fst (Fifo_pop_back t_size f dest)) = bool_decide (m_nbElements f <> 0)
  /\ snd (Fifo_pop_back t_size f dest) = hd dest (contents t_size f)
  /\ contents t_size (snd (fst (Fifo_pop_back t_size f dest)))
     = drop 1 (contents t_size f).
Proof.
  intros Hwf.
  destruct (Fifo_pop_back_spec f dest Hwf) as (_ & Hc & Hb & Hd).
  now repeat split.
Qed.

(** X5: [pop_back] is [pull] of one element: on the same buffer,
    [pull] into a destination of one slot with [availSpace == 1] leaves
    the buffer [pop_back] leaves, writes the value [pop_back] writes and
    returns 1 or 0 as [pop_back] returns true or false. *)
Theorem pop_back_is_pull_one f dest :
  0 <= m_nbElements f ->
  Fifo_pull t_size f [dest] 1
  = ((if fst (fst (Fifo_pop_back t_size f dest)) then 1 else 0),
     snd (fst (Fifo_pop_back t_size f dest)),
     [snd (Fifo_pop_back t_size f dest)]).
Proof.
  intros Hn. unfold Fifo_pull, Fifo_pop_back. simp pull_loop.
  destruct (decide (1 > 0 /\ m_nbElements f > 0)) as [Hyes|Hno];
    destruct (decide (m_nbElements f <> 0)) as [Hc|Hc]; try lia;
    cbn [fst snd pull_loop_unfold_clause_1].
  - simp pull_loop.
    destruct (decide (size_sub 1 1 > 0 /\ _)) as [H0|H0];
      [pose proof (proj1 H0) as H1; vm_compute in H1; discriminate
      |reflexivity].
  - reflexivity.
Qed.

(** X6: [drop(size)] discards [min(size, count)] of the oldest elements
    and returns that number; it returns what [pull] with
    [availSpace == size] returns and leaves the buffer [pull] leaves. *)
Theorem drop_is_pull_without_copy f size (destination : list T) :
  fifo_wf t_size f -> is_size_t size ->
  fst (Fifo_drop t_size f size) = Z.min size (m_nbElements f)
  /\ contents t_size (snd (Fifo_drop t_size f size))
     = drop (Z.to_nat size) (contents t_size f)
  /\ Fifo_drop t_size f size = fst (Fifo_pull t_size f destination size).
Proof.
  intros Hwf Hs. pose proof Hwf as [_ (Hn & _)]. unfold is_size_t in Hs.
  rewrite Fifo_drop_spec by assumption. cbn [fst snd].
  destruct (Fifo_pull_spec t_size Hsize f destination size Hwf Hs)
    as (d' & -> & _).
  split; [reflexivity|]. split; [|reflexivity].
  rewrite pulled_contents by (trivial; lia).
  apply drop_min_contents. lia.
Qed.

(** X7: on an empty buffer [pop_back], [pull] and [read] report nothing
    and leave the buffer and the destination as they are, whatever
    [availSpace] is; so does [drop]. *)
Theorem empty_buffer_reads f dest (destination : list T) availSpace :
  m_nbElements f = 0 ->
  Fifo_pop_back t_size f dest = (false, f, dest)
  /\ Fifo_pull t_size f destination availSpace = (0, f, destination)
  /\ Fifo_read t_size f destination availSpace = (0, f, destination)
  /\ (0 <= m_readIdx f < t_size -> 0 <= availSpace ->
      Fifo_drop t_size f availSpace = (0, f)).
Proof.
  intros Hempty.
  assert (Fifo_pull t_size f destination availSpace = (0, f, destination))
    as Hpull.
  { unfold Fifo_pull. simp pull_loop.
    destruct (decide (availSpace > 0 /\ m_nbElements f > 0)) as [H0|H0];
      [lia|].
    cbn [pull_loop_unfold_clause_1]. unfold size_sub, wrap.
    now rewrite Z.sub_diag. }
  split; [|split; [exact Hpull|split]].
  - unfold Fifo_pop_back.
    destruct (decide (m_nbElements f <> 0)); [contradiction|reflexivity].
  - rewrite Fifo_read_pull, Hpull. reflexivity.
  - intros Hr Hav. unfold Fifo_drop. rewrite Hempty.
    pose proof (t_size_fits t_size Hsize) as Hfit.
    rewrite Z.min_l by lia.
    rewrite size_add_small, size_sub_small by lia.
    rewrite Z.add_0_r, Z.mod_small by lia.
    destruct f; simpl in *. now subst.
Qed.

Lemma Fifo_eq_of_empty f other :
  m_nbElements f = 0 -> m_nbElements other = 0 ->
  Fifo_eq t_size f other = true.
Proof.
  intros E E'. unfold Fifo_eq.
  destruct (decide (m_nbElements f <> m_nbElements other)); [lia|].
  simp eq_loop.
  destruct (decide (0 < m_nbElements f)) as [H0|H0]; [lia|reflexivity].
Qed.

Lemma Fifo_reset_wf_length f :
  length (m_buffer f) = Z.to_nat t_size -> fifo_wf t_size (Fifo_reset f).
Proof.
  intros Hlen. split; [exact Hlen|].
  apply fifo_inv_alt; [exact Hsize|]. simpl. repeat split; try lia.
  all: symmetry; apply Z.mod_0_l; lia.
Qed.

(** What [pull] does in terms of the contents. *)
Lemma Fifo_pull_contents f destination availSpace :
  fifo_wf t_size f -> is_size_t availSpace ->
  fifo_wf t_size (snd (fst (Fifo_pull t_size f destination availSpace)))
  /\ fst (fst (Fifo_pull t_size f destination availSpace))
     = Z.min availSpace (Z.of_nat (length (contents t_size f)))
  /\ contents t_size (snd (fst (Fifo_pull t_size f destination availSpace)))
     = drop (Z.to_nat availSpace) (contents t_size f)
  /\ (Z.min availSpace (Z.of_nat (length (contents t_size f)))
        <= Z.of_nat (length destination) ->
      snd (Fifo_pull t_size f destination availSpace)
      = take (Z.to_nat availSpace) (contents t_size f)
        ++ drop (Z.to_nat (Z.min availSpace
                             (Z.of_nat (length (contents t_size f)))))
                destination).
Proof.
  intros Hwf Hav. pose proof Hwf as [_ (Hn & _)]. unfold is_size_t in Hav.
  split; [now apply Fifo_pull_wf|].
  rewrite <- (count_of_contents t_size f Hwf).
  destruct (Fifo_pull_spec t_size Hsize f destination availSpace Hwf Hav)
    as (d' & -> & Hd').
  cbn [fst snd]. split; [reflexivity|]. split.
  - rewrite pulled_contents by (trivial; lia).
    apply drop_min_contents. lia.
  - intros Hroom. rewrite Hd' by assumption. f_equal.
    destruct (decide (availSpace <= m_nbElements f)) as [Hle|Hgt].
    + now rewrite Z.min_l by lia.
    + rewrite Z.min_r by lia.
      rewrite !take_ge; [reflexivity| |]; rewrite contents_length; lia.
Qed.

(** What [push] does in terms of the contents. *)
Lemma Fifo_push_contents f src overwrite :
  fifo_wf t_size f ->
  fst (Fifo_push t_size f src overwrite)
  = (if negb overwrite
        && bool_decide (Z.of_nat (length src)
                        > t_size - Z.of_nat (length (contents t_size f)))
     then 0
     else Z.min (Z.of_nat (length src))
                (t_size - Z.of_nat (length (contents t_size f))))
  /\ contents t_size (snd (Fifo_push t_size f src overwrite))
     = queue_push t_size (contents t_size f) src overwrite.
Proof.
  intros Hwf. unfold queue_push.
  rewrite <- (count_of_contents t_size f Hwf).
  destruct (Fifo_push_spec t_size Hsize f src overwrite Hwf)
    as [(-> & Hgt & ->)|([->|Hle] & E1 & _ & E3)]; cbn [negb andb fst snd].
  - now rewrite bool_decide_eq_true_2 by assumption.
  - now split.
  - rewrite bool_decide_eq_false_2 by lia. rewrite andb_false_r.
    now split.
Qed.

(** X8: [reset] leaves an empty buffer whatever was stored: it compares
    equal to a freshly constructed one and to any other buffer after
    [reset], and a source of at most [t_size] elements pushed next is
    accepted whole and is all the buffer holds. *)
Theorem reset_is_fresh f other src :
  Fifo_eq t_size (Fifo_reset f) (Fifo_new t_size) = true
  /\ Fifo_eq t_size (Fifo_reset f) (Fifo_reset other) = true
  /\ contents t_size (Fifo_reset f) = []
  /\ (length (m_buffer f) = Z.to_nat t_size ->
      Z.of_nat (length src) <= t_size ->
      fst (Fifo_push t_size (Fifo_reset f) src false) = Z.of_nat (length src)
      /\ contents t_size (snd (Fifo_push t_size (Fifo_reset f) src false))
         = src).
Proof.
  split; [now apply Fifo_eq_of_empty|].
  split; [now apply Fifo_eq_of_empty|].
  split; [now apply contents_empty|].
  intros Hlen Hroom.
  pose proof (Fifo_reset_wf_length f Hlen) as Hwf.
  destruct (Fifo_push_fits t_size Hsize (Fifo_reset f) src Hwf) as [E1 E2];
    [simpl; lia|].
  split; [exact E1|]. rewrite E2. now rewrite contents_empty.
Qed.




(** *** [operator[]] and [data] *)

Lemma Fifo_at_set_wf f idx x :
  fifo_wf t_size f -> fifo_wf t_size (Fifo_at_set t_size f idx x).
Proof.
  intros [Hlen Hinv]. split; [|exact Hinv].
  unfold Fifo_at_set, buf_set. simpl. now rewrite length_insert.
Qed.

Lemma Fifo_at_set_contents f idx x :
  fifo_wf t_size f -> 0 <= idx < m_nbElements f ->
  contents t_size (Fifo_at_set t_size f idx x)
  = <[Z.to_nat idx := x]> (contents t_size f).
Proof.
  intros Hwf Hidx.
  pose proof (Fifo_at_set_wf f idx x Hwf) as Hwf'.
  pose proof Hwf as [Hlen (Hn & Hr & _)].
  pose proof (t_size_fits t_size Hsize) as Hfit.
  assert (size_add (m_readIdx f) idx mod t_size
          = (m_readIdx f + idx) mod t_size) as Hi
    by (rewrite size_add_small by lia; reflexivity).
  apply list_eq. intros i.
  destruct (decide (i < Z.to_nat (m_nbElements f))%nat) as [Hlt|Hge].
  - rewrite contents_lookup by (trivial; simpl; lia).
    unfold Fifo_at_set. cbn [m_buffer m_readIdx]. rewrite Hi.
    destruct (decide (i = Z.to_nat idx)) as [->|Hne].
    + rewrite list_lookup_insert_eq by (rewrite contents_length; lia).
      rewrite Z2Nat.id by lia. rewrite buf_get_set_eq; [reflexivity|].
      pose proof (Z.mod_pos_bound (m_readIdx f + idx) t_size). lia.
    + rewrite list_lookup_insert_ne by lia.
      rewrite contents_lookup by (trivial; lia).
      rewrite buf_get_set_ne; [reflexivity| | |].
      * apply Z.mod_pos_bound. lia.
      * apply Z.mod_pos_bound. lia.
      * intros E. apply mod_add_inj in E; lia.
  - rewrite !lookup_ge_None_2; [reflexivity| |].
    + rewrite length_insert, contents_length. lia.
    + rewrite contents_length. simpl. lia.
Qed.

(** X12: an assignment through [operator[]] at a logical position below
    the count replaces the element at that position and no other, and
    [operator[]] reads it back. *)
Theorem index_assignment f idx x :
  fifo_wf t_size f -> 0 <= idx < m_nbElements f ->
  contents t_size (Fifo_at_set t_size f idx x)
  = <[Z.to_nat idx := x]> (contents t_size f)
  /\ Fifo_at t_size (Fifo_at_set t_size f idx x) idx = x
  /\ fifo_wf t_size (Fifo_at_set t_size f idx x).
Proof.
  intros Hwf Hidx. pose proof Hwf as [Hlen (Hn & Hr & _)].
  pose proof (t_size_fits t_size Hsize) as Hfit.
  split; [now apply Fifo_at_set_contents|].
  split; [|now apply Fifo_at_set_wf].
  unfold Fifo_at, Fifo_at_set. cbn [m_buffer m_readIdx].
  apply buf_get_set_eq. rewrite size_add_small by lia.
  pose proof (Z.mod_pos_bound (m_readIdx f + idx) t_size). lia.
Qed.

(** X13: [operator[]] does not check its index against the count. The
    index [count] reads the slot the next push will write, and an index
    [t_size] further on reads the same slot again: on a full buffer
    [fifo[t_size]] is [fifo[0]]. *)
Theorem index_past_the_end f idx :
  fifo_wf t_size f ->
  Fifo_at t_size f (m_nbElements f) = buf_get (m_buffer f) (m_writeIdx f)
  /\ (0 <= idx -> m_readIdx f + idx + t_size < SIZE_MODULUS ->
      Fifo_at t_size f (idx + t_size) = Fifo_at t_size f idx).
Proof.
  intros [_ Hinv].
  apply fifo_inv_alt in Hinv as (Hn & Hr & Hw); [|exact Hsize].
  pose proof (t_size_fits t_size Hsize) as Hfit.
  split.
  - rewrite Fifo_at_in_range by (trivial; lia). now rewrite Hw.
  - intros Hidx Hfits. unfold Fifo_at.
    rewrite !size_add_small by lia.
    replace (m_readIdx f + (idx + t_size))
      with (m_readIdx f + idx + 1 * t_size) by lia.
    now rewrite Z.mod_add by lia.
Qed.

(** X14: [data] shows the backing array from slot 0, not from the read
    index: its first [count] elements are the contents in order when the
    read index is 0, as in a buffer built by the constructor from a list
    that fits. *)
Theorem data_is_physical f (initList : list T) :
  (fifo_wf t_size f -> m_readIdx f = 0 ->
   take (Z.to_nat (m_nbElements f)) (Fifo_data f) = contents t_size f)
  /\ (Z.of_nat (length initList) <= t_size ->
      take (length initList) (Fifo_data (Fifo_of_list t_size initList))
      = initList).
Proof.
  assert (forall f, fifo_wf t_size f -> m_readIdx f = 0 ->
          take (Z.to_nat (m_nbElements f)) (Fifo_data f) = contents t_size f)
    as Hdata.
  { clear f. intros f Hwf Hzero. pose proof Hwf as [Hlen (Hn & Hr & _)].
    unfold Fifo_data. apply list_eq. intros i.
    destruct (decide (i < Z.to_nat (m_nbElements f))%nat) as [Hlt|Hge].
    - rewrite lookup_take_lt by lia.
      rewrite contents_lookup by (trivial; lia).
      rewrite Hzero, Z.add_0_l, Z.mod_small by lia.
      unfold buf_get. rewrite Nat2Z.id.
      apply list_lookup_lookup_total_lt. lia.
    - rewrite lookup_take_ge by lia.
      rewrite lookup_ge_None_2; [reflexivity|].
      rewrite contents_length. lia. }
  split; [apply Hdata|]. intros Hfit.
  destruct (Fifo_of_list_spec initList) as (Hwf & Hc & Hr).
  rewrite take_ge in Hc by lia.
  rewrite <- Hc at 3. rewrite <- (Hdata _ Hwf Hr).
  f_equal. rewrite (count_of_contents t_size _ Hwf), Hc. lia.
Qed.

(** *** Iterators *)

(** The iterator [i] steps after [begin]. *)
Lemma Iterator_incr_at f i :
  fifo_wf t_size f -> 0 <= i < m_nbElements f ->
  Iterator_incr t_size
    (mkIterator ((m_readIdx f + i) mod t_size) (m_nbElements f - i))
  = mkIterator ((m_readIdx f + (i + 1)) mod t_size)
               (m_nbElements f - (i + 1)).
Proof.
  intros [_ (Hn & Hr & _)] Hi.
  pose proof (t_size_fits t_size Hsize) as Hfit.
  pose proof (Z.mod_pos_bound (m_readIdx f + i) t_size ltac:(lia)) as Hb.
  unfold Iterator_incr. cbn [m_index m_remaining].
  destruct (decide (m_nbElements f - i > 0)); [|lia].
  rewrite next_index, size_sub_small by (trivial; lia).
  rewrite Z.add_mod_idemp_l by lia. f_equal; [f_equal|]; lia.
Qed.

Lemma Fifo_begin_at f :
  fifo_wf t_size f ->
  Fifo_begin f
  = mkIterator ((m_readIdx f + 0) mod t_size) (m_nbElements f - 0).
Proof.
  intros [_ (Hn & Hr & _)]. unfold Fifo_begin.
  now rewrite Z.add_0_r, Z.sub_0_r, Z.mod_small by lia.
Qed.

Lemma Fifo_end_at f :
  fifo_wf t_size f ->
  Fifo_end t_size f
  = mkIterator ((m_readIdx f + m_nbElements f) mod t_size) 0.
Proof.
  intros [_ (Hn & Hr & _)]. unfold Fifo_end.
  pose proof (t_size_fits t_size Hsize) as Hfit.
  now rewrite size_add_small by lia.
Qed.

Lemma range_for_spec f (k : nat) : forall i fuel,
  fifo_wf t_size f -> 0 <= i -> i + Z.of_nat k = m_nbElements f ->
  range_for t_size fuel f
    (mkIterator ((m_readIdx f + i) mod t_size) (m_nbElements f - i))
    (Fifo_end t_size f)
  = if decide (k <= fuel)%nat
    then Some (drop (Z.to_nat i) (contents t_size f))
    else None.
Proof.
  induction k as [|k IH]; intros i fuel Hwf Hi Hk;
    rewrite (Fifo_end_at f Hwf).
  - assert (i = m_nbElements f) as -> by lia.
    rewrite Z.sub_diag.
    destruct (decide (0 <= fuel)%nat); [|lia].
    rewrite drop_ge by (rewrite contents_length; lia).
    destruct fuel; cbn [range_for]; unfold Iterator_eq;
      cbn [m_index m_remaining];
      now rewrite !bool_decide_eq_true_2 by reflexivity.
  - assert (Iterator_eq
              (mkIterator ((m_readIdx f + i) mod t_size) (m_nbElements f - i))
              (mkIterator ((m_readIdx f + m_nbElements f) mod t_size) 0)
            = false) as Hne.
    { unfold Iterator_eq. cbn [m_index m_remaining].
      rewrite (bool_decide_eq_false_2 (m_nbElements f - i = 0)) by lia.
      apply andb_false_r. }
    destruct fuel as [|fuel]; cbn [range_for]; rewrite Hne.
    + destruct (decide (S k <= 0)%nat); [lia|reflexivity].
    + rewrite Iterator_incr_at by (trivial; lia).
      rewrite <- (Fifo_end_at f Hwf). rewrite IH by (trivial; lia).
      unfold Iterator_deref. cbn [m_index].
      destruct (decide (k <= fuel)%nat);
        destruct (decide (S k <= S fuel)%nat); try lia; [|reflexivity].
      cbn [fmap option_fmap option_map]. f_equal.
      replace (Z.to_nat (i + 1)) with (S (Z.to_nat i)) by lia.
      symmetry. apply drop_S.
      rewrite contents_lookup by (trivial; lia).
      now rewrite Z2Nat.id by lia.
Qed.

Lemma Iterator_incr_iter f (k : nat) :
  fifo_wf t_size f -> Z.of_nat k <= m_nbElements f ->
  Nat.iter k (Iterator_incr t_size) (Fifo_begin f)
  = mkIterator ((m_readIdx f + Z.of_nat k) mod t_size)
               (m_nbElements f - Z.of_nat k).
Proof.
  intros Hwf. induction k as [|k IH]; intros Hk.
  - now apply Fifo_begin_at.
  - rewrite Nat.iter_succ, IH by lia.
    rewrite Iterator_incr_at by (trivial; lia).
    f_equal; [f_equal|]; lia.
Qed.

(** X15: a range-based [for] over the buffer visits the elements of the
    contents, oldest first, and stops after exactly [count] turns: with
    that many turns allowed it yields the contents, with fewer it has
    not reached [end()]. *)
Theorem iteration_yields_contents f fuel :
  fifo_wf t_size f ->
  (m_nbElements f <= Z.of_nat fuel ->
   range_for t_size fuel f (Fifo_begin f) (Fifo_end t_size f)
   = Some (contents t_size f))
  /\ (Z.of_nat fuel < m_nbElements f ->
      range_for t_size fuel f (Fifo_begin f) (Fifo_end t_size f) = None).
Proof.
  intros Hwf. pose proof Hwf as [_ (Hn & _)].
  rewrite (Fifo_begin_at f Hwf).
  rewrite (range_for_spec f (Z.to_nat (m_nbElements f)) 0 fuel Hwf)
    by lia.
  destruct (decide (Z.to_nat (m_nbElements f) <= fuel)%nat); split;
    intros; try lia; reflexivity.
Qed.

(** X16: [begin()] and [end()] compare equal exactly on an empty buffer,
    so a full buffer, whose two iterators have the same index, is not
    taken for an empty one; [count] increments lead from [begin()] to
    [end()], and further increments stay there. *)
Theorem begin_end f :
  fifo_wf t_size f ->
  Iterator_eq (Fifo_begin f) (Fifo_end t_size f)
  = bool_decide (m_nbElements f = 0)
  /\ Nat.iter (Z.to_nat (m_nbElements f)) (Iterator_incr t_size) (Fifo_begin f)
     = Fifo_end t_size f
  /\ Iterator_incr t_size (Fifo_end t_size f) = Fifo_end t_size f.
Proof.
  intros Hwf. pose proof Hwf as [_ (Hn & Hr & _)].
  split; [|split].
  - rewrite (Fifo_end_at f Hwf). unfold Iterator_eq, Fifo_begin.
    cbn [m_index m_remaining].
    destruct (decide (m_nbElements f = 0)) as [E|E].
    + rewrite E, Z.add_0_r, Z.mod_small by lia.
      now rewrite !bool_decide_eq_true_2 by reflexivity.
    + rewrite !(bool_decide_eq_false_2 (m_nbElements f = 0)) by assumption.
      apply andb_false_r.
  - rewrite Iterator_incr_iter by (trivial; lia).
    rewrite (Fifo_end_at f Hwf). f_equal; [f_equal|]; lia.
  - unfold Iterator_incr, Fifo_end. cbn [m_remaining].
    destruct (decide (0 > 0)); [lia|reflexivity].
Qed.

(** *** The buffer as a bounded queue *)

Lemma apply_op_contents f o :
  fifo_wf t_size f -> op_ok o ->
  contents t_size (apply_op t_size f o)
  = queue_apply t_size (contents t_size f) o.
Proof.
  intros Hwf Hok. pose proof Hwf as [_ (Hn & _)].
  destruct o; cbn [apply_op queue_apply op_ok] in *.
  - now apply Fifo_push_contents.
  - rewrite Fifo_push_var_eq. cbn [snd]. now apply Fifo_push_contents.
  - now apply Fifo_pop_back_spec.
  - now apply Fifo_pull_contents.
  - rewrite Fifo_read_pull. reflexivity.
  - rewrite Fifo_drop_spec by assumption. cbn [snd].
    unfold is_size_t in Hok.
    rewrite pulled_contents by (trivial; lia).
    apply drop_min_contents. lia.
  - now apply contents_empty.
Qed.

(** X17: through any sequence of push, pop, pull, read, drop and reset
    calls the buffer behaves as a queue on a plain list that holds at
    most [t_size] elements: its contents are those of the list queue
    after the same calls, and [getCount] is their number. *)
Theorem buffer_refines_queue f (ops : list op) :
  fifo_wf t_size f -> Forall op_ok ops ->
  contents t_size (run t_size f ops)
  = fold_left (queue_apply t_size) ops (contents t_size f)
  /\ Fifo_getCount (run t_size f ops)
     = Z.of_nat (length (fold_left (queue_apply t_size) ops
                                   (contents t_size f))).
Proof.
  intros Hwf Hok.
  assert (contents t_size (run t_size f ops)
          = fold_left (queue_apply t_size) ops (contents t_size f)) as E.
  { revert f Hwf. induction Hok as [|o ops Ho Hok IH]; intros f Hwf;
      [reflexivity|].
    unfold run. cbn [fold_left].
    rewrite <- (apply_op_contents f o Hwf Ho).
    apply IH. now apply apply_op_wf. }
  split; [exact E|]. rewrite <- E. unfold Fifo_getCount.
  apply count_of_contents. now apply run_wf.
Qed.


End FifoMore.

(** ** The further properties on buffers of the test suite *)

Section MoreTests.
#[local] Existing Instance int_default.

Ltac evaluate :=
  repeat split; vm_compute; intros;
  first [reflexivity | discriminate | congruence].

Lemma of_list_contents_witness :
  0 < 5 <= PTRDIFF_MAX
  /\ contents 5 (Fifo_of_list 5 [1; 2; 3; 4; 5; 6; 7]) = [1; 2; 3; 4; 5]
  /\ Fifo_getCount (Fifo_of_list 5 [1; 2; 3; 4; 5; 6; 7]) = 5.
Proof.
  split; [exact capacity_5|].
  destruct (of_list_contents 5 capacity_5 [1; 2; 3; 4; 5; 6; 7])
    as (_ & Hc & _ & Hn).
  split; [exact Hc|exact Hn].
Defined.

Lemma push_var_result_witness :
  let f := Fifo_of_list 5 [1; 2; 3] in
  fifo_wf 5 f
  /\ fst (Fifo_push_var 5 f 9 false) = true
  /\ contents 5 (snd (Fifo_push_var 5 f 9 false)) = [1; 2; 3; 9].
Proof.
  intros f.
  assert (fifo_wf 5 f) as Hwf by evaluate.
  split; [exact Hwf|].
  destruct (push_var_result 5 capacity_5 f 9 false Hwf) as (Hb & Hfree & _).
  split; [exact Hb|exact (proj1 (Hfree eq_refl))].
Defined.

Lemma push_overwrite_keeps_newest_witness :
  let f := Fifo_of_list 5 [1; 2; 3; 4] in
  fifo_wf 5 f
  /\ contents 5 (snd (Fifo_push 5 f [5; 6; 7] true)) = [3; 4; 5; 6; 7].
Proof.
  intros f.
  assert (fifo_wf 5 f) as Hwf by evaluate.
  split; [exact Hwf|].
  exact (proj1 (push_overwrite_keeps_newest 5 capacity_5 f [5; 6; 7] Hwf)).
Defined.

Lemma pop_back_oldest_witness :
  let f := snd (Fifo_push 4 (Fifo_of_list 4 [0; 0; 0; 0]) [1; 2; 3] true) in
  fifo_wf 4 f /\ m_readIdx f = 3
  /\ fst (fst (Fifo_pop_back 4 f 77)) = true
  /\ snd (Fifo_pop_back 4 f 77) = 0
  /\ contents 4 (snd (fst (Fifo_pop_back 4 f 77))) = [1; 2; 3].
Proof.
  intros f.
  assert (fifo_wf 4 f) as Hwf by evaluate.
  split; [exact Hwf|]. split; [reflexivity|].
  exact (pop_back_oldest 4 capacity_4 f 77 Hwf).
Defined.

Lemma pop_back_is_pull_one_witness :
  let f := Fifo_of_list 5 [42; 43] in
  0 <= m_nbElements f
  /\ Fifo_pull 5 f [0] 1
     = (1, snd (fst (Fifo_pop_back 5 f 0)), [42]).
Proof.
  intros f.
  assert (0 <= m_nbElements f) as Hn by discriminate.
  split; [exact Hn|].
  exact (pop_back_is_pull_one 5 f 0 Hn).
Defined.

Lemma drop_is_pull_without_copy_witness :
  let f := snd (Fifo_push 4 (Fifo_of_list 4 [0; 0; 0; 0]) [1; 2; 3] true) in
  fifo_wf 4 f /\ is_size_t 2
  /\ fst (Fifo_drop 4 f 2) = 2
  /\ contents 4 (snd (Fifo_drop 4 f 2)) = [2; 3]
  /\ Fifo_drop 4 f 2 = fst (Fifo_pull 4 f [0; 0] 2).
Proof.
  intros f.
  assert (fifo_wf 4 f) as Hwf by evaluate.
  assert (is_size_t 2) as Hs by evaluate.
  split; [exact Hwf|]. split; [exact Hs|].
  exact (drop_is_pull_without_copy 4 capacity_4 f 2 [0; 0] Hwf Hs).
Defined.

Lemma empty_buffer_reads_witness :
  let f : Fifo Z := Fifo_reset (Fifo_of_list 5 [1; 2; 3]) in
  m_nbElements f = 0
  /\ Fifo_pop_back 5 f 7 = (false, f, 7)
  /\ Fifo_pull 5 f [8; 9] 2 = (0, f, [8; 9])
  /\ Fifo_read 5 f [8; 9] 2 = (0, f, [8; 9])
  /\ Fifo_drop 5 f 2 = (0, f).
Proof.
  intros f.
  destruct (empty_buffer_reads 5 capacity_5 f 7 [8; 9] 2 eq_refl)
    as (Hpop & Hpull & Hread & Hdrop).
  split; [reflexivity|]. split; [exact Hpop|]. split; [exact Hpull|].
  split; [exact Hread|].
  apply Hdrop; [split; [discriminate|reflexivity]|discriminate].
Defined.

Lemma reset_is_fresh_witness :
  let f := Fifo_of_list 5 [1; 2; 3] in
  let other := Fifo_of_list 5 [4; 5] in
  length (m_buffer f) = Z.to_nat 5
  /\ Z.of_nat (length [7; 8]) <= 5
  /\ Fifo_eq 5 (Fifo_reset f) (Fifo_new 5) = true
  /\ Fifo_eq 5 (Fifo_reset f) (Fifo_reset other) = true
  /\ contents 5 (snd (Fifo_push 5 (Fifo_reset f) [7; 8] false)) = [7; 8].
Proof.
  intros f other.
  assert (length (m_buffer f) = Z.to_nat 5) as Hlen by reflexivity.
  assert (Z.of_nat (length [7; 8]) <= 5) as Hroom by discriminate.
  destruct (reset_is_fresh 5 capacity_5 f other [7; 8])
    as (Hnew & Hother & _ & Hpush).
  split; [exact Hlen|]. split; [exact Hroom|].
  split; [exact Hnew|]. split; [exact Hother|].
  exact (proj2 (Hpush Hlen Hroom)).
Defined.




Lemma index_assignment_witness :
  let f := snd (Fifo_push 4 (Fifo_of_list 4 [0; 0; 0; 0]) [1; 2; 3] true) in
  fifo_wf 4 f /\ 0 <= 2 < m_nbElements f
  /\ contents 4 (Fifo_at_set 4 f 2 42) = [0; 1; 42; 3]
  /\ Fifo_at 4 (Fifo_at_set 4 f 2 42) 2 = 42.
Proof.
  intros f.
  assert (fifo_wf 4 f) as Hwf by evaluate.
  assert (0 <= 2 < m_nbElements f) as Hidx by evaluate.
  destruct (index_assignment 4 capacity_4 f 2 42 Hwf Hidx) as (Hc & Hat & _).
  split; [exact Hwf|]. split; [exact Hidx|]. split; [exact Hc|exact Hat].
Defined.

Lemma index_past_the_end_witness :
  let f := Fifo_of_list 5 [1; 2; 3] in
  fifo_wf 5 f
  /\ Fifo_at 5 f 3 = 0
  /\ Fifo_at 5 f (1 + 5) = Fifo_at 5 f 1.
Proof.
  intros f.
  assert (fifo_wf 5 f) as Hwf by evaluate.
  destruct (index_past_the_end 5 capacity_5 f 1 Hwf) as [Hend Hper].
  split; [exact Hwf|]. split; [exact Hend|].
  apply Hper; [discriminate|reflexivity].
Defined.

Lemma data_is_physical_witness :
  let f := Fifo_of_list 5 [1; 2; 3] in
  fifo_wf 5 f /\ m_readIdx f = 0
  /\ Z.of_nat (length [1; 2; 3]) <= 5
  /\ take 3 (Fifo_data f) = contents 5 f
  /\ take 3 (Fifo_data (Fifo_of_list 5 [1; 2; 3])) = [1; 2; 3].
Proof.
  intros f.
  assert (fifo_wf 5 f) as Hwf by evaluate.
  assert (Z.of_nat (length [1; 2; 3]) <= 5) as Hfit by discriminate.
  destruct (data_is_physical 5 capacity_5 f [1; 2; 3]) as [Hdata Hinit].
  split; [exact Hwf|]. split; [reflexivity|]. split; [exact Hfit|].
  split; [exact (Hdata Hwf eq_refl)|exact (Hinit Hfit)].
Defined.

Lemma iteration_yields_contents_witness :
  let f := snd (Fifo_push 4 (Fifo_of_list 4 [0; 0; 0; 0]) [1; 2; 3] true) in
  fifo_wf 4 f /\ m_nbElements f <= Z.of_nat 6
  /\ range_for 4 6 f (Fifo_begin f) (Fifo_end 4 f) = Some [0; 1; 2; 3].
Proof.
  intros f.
  assert (fifo_wf 4 f) as Hwf by evaluate.
  assert (m_nbElements f <= Z.of_nat 6) as Hfuel by discriminate.
  split; [exact Hwf|]. split; [exact Hfuel|].
  exact (proj1 (iteration_yields_contents 4 capacity_4 f 6 Hwf) Hfuel).
Defined.

Lemma begin_end_witness :
  let f := Fifo_of_list 5 [1; 2; 3; 4; 5] in
  fifo_wf 5 f
  /\ m_index (Fifo_begin f) = m_index (Fifo_end 5 f)
  /\ Iterator_eq (Fifo_begin f) (Fifo_end 5 f) = false
  /\ Nat.iter 5 (Iterator_incr 5) (Fifo_begin f) = Fifo_end 5 f.
Proof.
  intros f.
  assert (fifo_wf 5 f) as Hwf by evaluate.
  destruct (begin_end 5 capacity_5 f Hwf) as (Heq & Hiter & _).
  split; [exact Hwf|]. split; [reflexivity|].
  split; [exact Heq|exact Hiter].
Defined.

Lemma buffer_refines_queue_witness :
  let ops :=
    [OpPush [1; 2; 3; 4] false; OpPop 0; OpPushVar 9 true;
     OpPush [5; 6; 7] true; OpPull [0; 0] 2; OpRead [0] 1;
     OpDrop 1; OpPushVar 8 false] in
  let f : Fifo Z := Fifo_new 5 in
  fifo_wf 5 f /\ Forall op_ok ops
  /\ contents 5 (run 5 f ops) = [6; 7; 8]
  /\ Fifo_getCount (run 5 f ops) = 3.
Proof.
  intros ops f.
  assert (fifo_wf 5 f) as Hwf by evaluate.
  assert (Forall op_ok ops) as Hok
    by (repeat constructor; vm_compute; discriminate).
  split; [exact Hwf|]. split; [exact Hok|].
  exact (buffer_refines_queue 5 capacity_5 f ops Hwf Hok).
Defined.


End MoreTests.
